(** * Stokes / IDA adapter: a functional model of [stokes_ida.cc]

    The model follows [examples/stokes/source/stokes_ida.cc].  The class
    [Stokes<dim>] is instantiated for [dim = 2] only
    ([template class Stokes<2>]).  Its member functions become functions on
    a record [Stokes] of the members they read and write.  Everything the
    class obtains from deal.II, Trilinos and MPI (mesh, finite element
    values, constraint construction, local-to-global scatter, Krylov
    solvers, error estimator, solution transfer) is collected in the
    interface [DealII]; a small reference instance makes the model
    executable.

    [double] is IEEE-754 binary64, taken from the Standard Library's
    [SpecFloat]; indices are global degree-of-freedom numbers. *)

From Stdlib Require Import ZArith List Bool Lia.
From Stdlib Require Import Floats.SpecFloat.
From Stdlib Require String.
From stdpp Require Import base option list gmap.

Local Open Scope nat_scope.

(** ** IEEE-754 binary64 *)

Module Double.

Definition double : Type := spec_float.

Definition prec : Z := 53%Z.
Definition emax : Z := 1024%Z.

Definition add (x y : double) : double := SFadd prec emax x y.
Definition sub (x y : double) : double := SFsub prec emax x y.
Definition mul (x y : double) : double := SFmul prec emax x y.
Definition div (x y : double) : double := SFdiv prec emax x y.
Definition opp (x : double) : double := SFopp x.
Definition abs (x : double) : double := SFabs x.
Definition ltb (x y : double) : bool := SFltb x y.

(** [+0.0] *)
Definition zero : double := S754_zero false.
(** [1.0] *)
Definition one : double := S754_finite false 4503599627370496 (-52).
(** [2.0] *)
Definition two : double := S754_finite false 4503599627370496 (-51).
(** [-1.0], the value of the int literal [-1] converted to double *)
Definition minus_one : double := S754_finite true 4503599627370496 (-52).
(** the literal [1e-8] *)
Definition lit_1e_8 : double := S754_finite false 6044629098073146 (-79).
(** the literal [0.02] *)
Definition lit_0_02 : double := S754_finite false 5764607523034235 (-58).

(** neither an infinity nor a NaN *)
Definition is_finite (x : double) : bool :=
  match x with
  | S754_zero _ | S754_finite _ _ _ => true
  | S754_infinity _ | S754_nan => false
  end.

(** [std::max(a, b)]: [(a < b) ? b : a] *)
Definition max (a b : double) : double := if ltb a b then b else a.

#[global] Instance double_inhabited : Inhabited double := populate zero.

#[global] Instance double_eq_dec : EqDecision double.
Proof. solve_decision. Defined.

End Double.

Import Double.

(** ** Vectors, index sets, dense and sparse matrices *)

(** [VEC] ([TrilinosWrappers::MPI::BlockVector]): the entries in global
    numbering; the blocks are the consecutive index ranges given by
    [dofs_per_block]. *)
Abbreviation VEC := (list double).

(** [v(j)]; the library asserts [j] in range, out of range reads [0.0] here *)
Definition vec_get (v : VEC) (j : nat) : double := default zero (v !! j).

(** [v[j] = x] *)
Definition vec_set (v : VEC) (j : nat) (x : double) : VEC := <[j := x]> v.

(** [v = w] between vectors of one partitioning: [v] takes the entries of
    [w] (a ghosted [v] keeps its ghost layout, which is not part of [VEC]) *)
Definition vec_assign (v w : VEC) : VEC := w.

(** [v = 0] and [v.reinit(w)]: same layout, all entries [+0.0] *)
Definition vec_zero (v : VEC) : VEC := replicate (length v) zero.

(** first global index of block [b] ([std::accumulate] over the block sizes) *)
Definition block_start (dofs_per_block : list nat) (b : nat) : nat :=
  foldr Nat.add 0 (take b dofs_per_block).

Definition block_size (dofs_per_block : list nat) (b : nat) : nat :=
  default 0 (dofs_per_block !! b).

Definition in_block (dofs_per_block : list nat) (b j : nat) : bool :=
  (block_start dofs_per_block b <=? j)
  && (j <? block_start dofs_per_block b + block_size dofs_per_block b).

(** [v.block(b) = c] *)
Definition set_block (dofs_per_block : list nat) (b : nat) (c : double)
    (v : VEC) : VEC :=
  imap (fun j x => if in_block dofs_per_block b j then c else x) v.

(** [IndexSet]: its elements in increasing order, so that
    [nth_index_in_set(i)] is the [i]-th element of the list *)
Abbreviation IndexSet := (list nat).

(** [FullMatrix<double>] and [Vector<double>] of a cell *)
Abbreviation FullMatrix := (gmap (nat * nat) double).
Definition full_get (M : FullMatrix) (i j : nat) : double :=
  default zero (M !! (i, j)).
(** [M(i,j) += x] *)
Definition full_add (M : FullMatrix) (i j : nat) (x : double) : FullMatrix :=
  <[(i, j) := add (full_get M i j) x]> M.

(** [TrilinosWrappers::BlockSparseMatrix] in global numbering: [mat_m] rows
    and the stored entries *)
Record SparseMatrix : Type := mkSparseMatrix {
  mat_m : nat;
  mat_entries : gmap (nat * nat) double
}.

#[global] Instance SparseMatrix_eq_dec : EqDecision SparseMatrix.
Proof. solve_decision. Defined.

Definition mat_get (M : SparseMatrix) (i j : nat) : double :=
  default zero (mat_entries M !! (i, j)).

(** [M.add(i, j, x)] *)
Definition mat_add (M : SparseMatrix) (i j : nat) (x : double) : SparseMatrix :=
  mkSparseMatrix (mat_m M) (<[(i, j) := add (mat_get M i j) x]> (mat_entries M)).

(** [M.set(i, j, x)] *)
Definition mat_set (M : SparseMatrix) (i j : nat) (x : double) : SparseMatrix :=
  mkSparseMatrix (mat_m M) (<[(i, j) := x]> (mat_entries M)).

(** [M = 0]: the sparsity pattern stays, every stored entry becomes [+0.0] *)
Definition mat_zero (M : SparseMatrix) : SparseMatrix :=
  mkSparseMatrix (mat_m M) ((fun _ => zero) <$> mat_entries M).

(** [M.reinit(sparsity_pattern)] *)
Definition mat_reinit (m : nat) (pattern : list (nat * nat)) : SparseMatrix :=
  mkSparseMatrix m (list_to_map ((fun ij => (ij, zero)) <$> pattern)).

(** [M.block(bi, bj)], in the block's own numbering *)
Definition mat_block (dofs_per_block : list nat) (M : SparseMatrix)
    (bi bj : nat) : gmap (nat * nat) double :=
  list_to_map
    (omap (fun e : (nat * nat) * double =>
             let '((i, j), x) := e in
             if in_block dofs_per_block bi i && in_block dofs_per_block bj j
             then Some ((i - block_start dofs_per_block bi,
                         j - block_start dofs_per_block bj), x)
             else None)
          (map_to_list (mat_entries M))).

(** [compress(VectorOperation::add)] / [compress(VectorOperation::insert)]
    ship entries written for rows of other MPI ranks to their owners.  The
    model follows one rank on the global data and has no pending off-rank
    entries, so both leave the object as it is. *)
Inductive VectorOperation : Type := vo_add | vo_insert.
Definition vec_compress (op : VectorOperation) (v : VEC) : VEC := v.
Definition mat_compress (op : VectorOperation) (M : SparseMatrix) : SparseMatrix := M.

(** ** Tensors for [dim = 2] *)

Definition Tensor1 : Type := double * double.
(** components [xx], [yy], [xy] *)
Definition SymmetricTensor2 : Type := double * double * double.
Definition Tensor2 : Type := (double * double) * (double * double).

(** [Tensor<1,dim>::operator[]] *)
Definition component (t : Tensor1) (c : nat) : double :=
  match c with 0 => t.1 | _ => t.2 end.
(** [c * t] *)
Definition scale1 (c : double) (t : Tensor1) : Tensor1 :=
  (mul c t.1, mul c t.2).
(** [a * b], the contraction of two rank-1 tensors *)
Definition dot1 (a b : Tensor1) : double :=
  add (mul a.1 b.1) (mul a.2 b.2).
(** [c * s] *)
Definition scale_sym (c : double) (s : SymmetricTensor2) : SymmetricTensor2 :=
  let '(xx, yy, xy) := s in (mul c xx, mul c yy, mul c xy).
(** [s * t] and [scalar_product(s, t)] of symmetric tensors: the double
    contraction, the off-diagonal component counted twice *)
Definition sym_contract (s t : SymmetricTensor2) : double :=
  let '(sxx, syy, sxy) := s in
  let '(txx, tyy, txy) := t in
  add (add (mul sxx txx) (mul syy tyy)) (mul (mul two sxy) txy).
(** [scalar_product(a, b)] of rank-2 tensors *)
Definition scalar_product (a b : Tensor2) : double :=
  let '((a00, a01), (a10, a11)) := a in
  let '((b00, b01), (b10, b11)) := b in
  add (add (add (mul a00 b00) (mul a01 b01)) (mul a10 b10)) (mul a11 b11).

(** ** ConstraintMatrix *)

(** One line [x_line = sum_k coefficient_k * x_k + inhomogeneity]. *)
Record ConstraintLine : Type := mkLine {
  line : nat;
  entries : list (nat * double);
  inhomogeneity : double
}.

Abbreviation ConstraintMatrix := (list ConstraintLine).

(** [constraints.clear()] *)
Definition clear : ConstraintMatrix := [].

Definition is_constrained (cm : ConstraintMatrix) (j : nat) : bool :=
  existsb (fun l => line l =? j) cm.

(** the right-hand side of a line evaluated on [v] *)
Definition line_value (l : ConstraintLine) (v : VEC) : double :=
  fold_left (fun acc e => add acc (mul (vec_get v e.1) e.2))
            (entries l) (inhomogeneity l).

(** [constraints.distribute(v)]: every constrained entry is overwritten by
    the value of its line *)
Definition distribute (cm : ConstraintMatrix) (v : VEC) : VEC :=
  fold_left (fun v l => vec_set v (line l) (line_value l v)) cm v.

(** [v] satisfies the affine constraints: every constrained entry already
    holds the value of its line *)
Definition satisfies_constraints (cm : ConstraintMatrix) (v : VEC) : Prop :=
  Forall (fun l => v !! line l = Some (line_value l v)) cm.

(** ** Solver controls, preconditioners and linear operators *)

Record SolverControl : Type := mkSolverControl {
  max_steps : nat;
  tolerance : double
}.

(** [SolverFGMRES<VEC>::AdditionalData(max_basis_size, true)] *)
Record FGMRESAdditionalData : Type := mkFGMRESData {
  max_basis_size : nat;
  fgmres_flag : bool
}.

Record AMGAdditionalData : Type := mkAMGData {
  constant_modes : list (list bool);
  elliptic : bool;
  higher_order_elements : bool;
  smoother_sweeps : nat;
  aggregation_threshold : double
}.

(** A preconditioner object after [initialize]: it is built from the
    entries the matrix block has at that moment. *)
Inductive Preconditioner : Type :=
  | PreconditionJacobi (A : gmap (nat * nat) double)
  | PreconditionAMG (A : gmap (nat * nat) double) (data : AMGAdditionalData).

(** The two block matrices a [linear_operator] can refer to.  The operator
    keeps a reference, not a copy. *)
Inductive MatrixId : Type := the_jacobian_matrix | the_jacobian_preconditioner_matrix.

Inductive LinearOperator : Type :=
  | default_operator
  | linear_operator (M : MatrixId) (bi bj : nat)
  | scale_operator (c : double) (op : LinearOperator)
  | compose_operator (a b : LinearOperator)
  | null_operator (op : LinearOperator)
  | inverse_operator (op : LinearOperator) (solver_CG : SolverControl)
                     (preconditioner : Preconditioner)
  | block_operator (op00 op01 op10 op11 : LinearOperator).

(** What a solve through [inverse_operator(...).vmult(dst, src)] can do:
    return, throw [SolverControl::NoConvergence], or throw something else.
    In each case the vector left in [dst] and [last_step()] are recorded. *)
Inductive Exception : Type :=
  | NoConvergence
  | OtherException (what : nat).

Inductive SolveOutcome : Type :=
  | solve_returns (dst : VEC) (last_step : nat)
  | solve_throws (e : Exception) (dst : VEC) (last_step : nat).

Inductive Coupling : Type := get_coupling | get_preconditioner_coupling.
Inductive ParsedFunction : Type := the_initial_solution | the_initial_solution_dot.

(** ** The interface to deal.II, Trilinos and MPI *)

(** Values of the shape functions and of finite element fields on one cell
    ([FEValues] after [reinit(cell)]); [u] is the velocity extractor, [p]
    the pressure extractor.  The first index is the local degree of
    freedom, the second the quadrature point. *)
Record FEValues : Type := mkFEValues {
  value_u : nat -> nat -> Tensor1;
  symmetric_gradient_u : nat -> nat -> SymmetricTensor2;
  gradient_u : nat -> nat -> Tensor2;
  divergence_u : nat -> nat -> double;
  value_p : nat -> nat -> double;
  JxW : nat -> double;
  get_quadrature_points : list Tensor1;
  get_function_symmetric_gradients_u : VEC -> nat -> SymmetricTensor2;
  get_function_values_u : VEC -> nat -> Tensor1;
  get_function_divergences_u : VEC -> nat -> double;
  get_function_values_p : VEC -> nat -> double
}.

Class DealII : Type := {
  (** a triangulation together with the [DoFHandler] attached to it *)
  Grid : Type;
  Cell : Type;
  (* finite element and quadrature *)
  dofs_per_cell : nat;
  n_q_points : nat;
  system_to_component_index : nat -> nat;
  (* DoFHandler *)
  distribute_dofs : Grid -> Grid;
  n_dofs : Grid -> nat;
  count_dofs_per_block : Grid -> list nat;
  locally_owned_dofs : Grid -> IndexSet;
  active_cells : Grid -> list Cell;
  is_locally_owned : Cell -> bool;
  get_dof_indices : Cell -> list nat;
  fe_values_reinit : Grid -> Cell -> FEValues;
  extract_constant_modes : Grid -> list bool -> list (list bool);
  make_sparsity_pattern : Grid -> Coupling -> ConstraintMatrix -> list (nat * nat);
  (* constraints; the boundary values are those of [dirichlet_bcs] at its
     current time *)
  make_hanging_node_constraints : Grid -> ConstraintMatrix -> ConstraintMatrix;
  interpolate_boundary_values : double -> Grid -> ConstraintMatrix -> ConstraintMatrix;
  close : ConstraintMatrix -> ConstraintMatrix;
  distribute_local_to_global_vector :
    ConstraintMatrix -> list double -> list nat -> VEC -> VEC;
  distribute_local_to_global_matrix :
    ConstraintMatrix -> FullMatrix -> list nat -> SparseMatrix -> SparseMatrix;
  (* data functions *)
  VectorTools_interpolate : Grid -> ParsedFunction -> VEC -> VEC;
  forcing_term_vector_value_list : double -> list Tensor1 -> nat -> nat -> double;
  (* mesh adaptation *)
  n_active_cells : Grid -> nat;
  n_mpi_processes : nat;
  locally_owned_subdomain : Grid -> nat;
  KellyErrorEstimator_estimate : Grid -> VEC -> list bool -> nat -> list double;
  refine_and_coarsen_fixed_fraction :
    Grid -> list double -> double -> double -> Grid;
  refine_and_coarsen_fixed_number :
    Grid -> list double -> double -> double -> Z -> Grid;
  prepare_coarsening_and_refinement : Grid -> Grid;
  execute_coarsening_and_refinement : Grid -> Grid;
  refine_global : nat -> Grid -> Grid;
  (* [SolutionTransfer]: [prepare_for_coarsening_and_refinement] attaches a
     vector to the mesh, [interpolate] reads back the [k]-th attached one *)
  prepare_for_coarsening_and_refinement : Grid -> VEC -> Grid;
  SolutionTransfer_interpolate : Grid -> nat -> VEC -> VEC;
  (* [inverse_operator(op, solver, preconditioner).vmult(dst, src)] with a
     [SolverFGMRES]; the operators read the two block matrices *)
  SolverFGMRES_vmult :
    SolverControl -> FGMRESAdditionalData ->
    LinearOperator -> LinearOperator ->
    SparseMatrix -> SparseMatrix -> list nat ->
    VEC -> VEC -> SolveOutcome
}.

(** What the model relies on from the library beyond the types: the
    scatter into a global vector adds into its entries and does not resize
    it. *)
Class DealIILaws (L : DealII) : Prop := {
  distribute_local_to_global_vector_length :
    forall c cell_rhs local_dof_indices (dst : VEC),
      length (distribute_local_to_global_vector c cell_rhs local_dof_indices dst)
      = length dst
}.

(** The loops over the locally owned indices in [residual] and
    [set_constrained_dofs_to_zero] have the form "for every owned [j]: if
    [pick j] then [v[j] = value j]". *)
Definition owned_loop (pick : nat -> bool) (value : nat -> double)
    (id : IndexSet) (v : VEC) : VEC :=
  fold_left (fun v j => if pick j then vec_set v j (value j) else v) id v.

(** ** The class [Stokes<2>] *)

(** Calls into the mesh and the solution transfer, in program order. *)
Inductive Call : Type :=
  | call_estimate (u : VEC) (component_mask : list bool)
  | call_refine_and_coarsen_fixed_fraction
      (criteria : list double) (top bottom : double)
  | call_refine_and_coarsen_fixed_number
      (criteria : list double) (top bottom : double) (max_n_cells : Z)
  | call_prepare_coarsening_and_refinement
  | call_prepare_for_coarsening_and_refinement (v : VEC)
  | call_execute_coarsening_and_refinement
  | call_refine_global (times : nat)
  | call_setup_dofs (first_run : bool)
  | call_interpolate (k : nat)
  | call_distribute (v : VEC)
  | call_barrier.

(** The run-time parameters of [declare_parameters]. *)
Record Parameters : Type := mkParameters {
  initial_global_refinement : nat;
  max_time_iterations : nat;
  adaptive_refinement : bool;
  use_direct_solver : bool;
  use_space_adaptivity : bool;
  kelly_threshold : double;
  max_cells : Z;
  top_fraction : double;
  bottom_fraction : double;
  mu : double
}.

Section Model.

Context `{L : DealII}.

Record Stokes : Type := mkStokes {
  prm : Parameters;
  grid : Grid;
  dirichlet_bcs_time : double;
  forcing_term_time : double;
  exact_solution_time : double;
  dofs_per_block : list nat;
  global_partitioning : IndexSet;
  constraints : ConstraintMatrix;
  jacobian_matrix : SparseMatrix;
  jacobian_preconditioner_matrix : SparseMatrix;
  solution : VEC;
  solution_dot : VEC;
  distributed_solution : VEC;
  distributed_solution_dot : VEC;
  Mp_preconditioner : option Preconditioner;
  Amg_preconditioner : option Preconditioner;
  jacobian_op : LinearOperator;
  jacobian_preconditioner_op : LinearOperator;
  calls : list Call
}.

(** [constraints.clear(); make_hanging_node_constraints;
    interpolate_boundary_values; close()] *)
Definition rebuild_constraints (t : double) (g : Grid) : ConstraintMatrix :=
  close (interpolate_boundary_values t g (make_hanging_node_constraints g clear)).

(** *** [setup_dofs] *)

Definition setup_dofs (first_run : bool) (s : Stokes) : Stokes :=
  let g := distribute_dofs (grid s) in
  let dpb := count_dofs_per_block g in
  let gp := locally_owned_dofs g in
  let c := rebuild_constraints (dirichlet_bcs_time s) g in
  let J := mat_reinit (foldr Nat.add 0 dpb) (make_sparsity_pattern g get_coupling c) in
  let P := mat_reinit (foldr Nat.add 0 dpb)
                      (make_sparsity_pattern g get_preconditioner_coupling c) in
  let fresh := replicate (foldr Nat.add 0 dpb) zero in
  let sol := if first_run
             then VectorTools_interpolate g the_initial_solution fresh
             else fresh in
  let sol_dot := if first_run
                 then VectorTools_interpolate g the_initial_solution_dot fresh
                 else fresh in
  {| prm := prm s;
     grid := g;
     dirichlet_bcs_time := dirichlet_bcs_time s;
     forcing_term_time := forcing_term_time s;
     exact_solution_time := exact_solution_time s;
     dofs_per_block := dpb;
     global_partitioning := gp;
     constraints := c;
     jacobian_matrix := J;
     jacobian_preconditioner_matrix := P;
     solution := sol;
     solution_dot := sol_dot;
     distributed_solution := fresh;
     distributed_solution_dot := fresh;
     Mp_preconditioner := Mp_preconditioner s;
     Amg_preconditioner := Amg_preconditioner s;
     jacobian_op := jacobian_op s;
     jacobian_preconditioner_op := jacobian_preconditioner_op s;
     calls := calls s ++ [call_setup_dofs first_run] |}.

(** *** [assemble_jacobian_matrix] *)

(** the summand of [cell_matrix(i,j)] at one quadrature point *)
Definition jacobian_integrand (alpha mu_ : double) (fe : FEValues)
    (i j q : nat) : double :=
  mul (sub (sub (add (dot1 (scale1 alpha (value_u fe i q)) (value_u fe j q))
                     (sym_contract (scale_sym mu_ (symmetric_gradient_u fe i q))
                                   (symmetric_gradient_u fe j q)))
                (mul (divergence_u fe i q) (value_p fe j q)))
           (mul (value_p fe i q) (divergence_u fe j q)))
      (JxW fe q).

(** the summand of [cell_prec(i,j)] at one quadrature point *)
Definition preconditioner_integrand (alpha mu_ : double) (fe : FEValues)
    (i j q : nat) : double :=
  mul (add (add (dot1 (scale1 (div one alpha) (value_u fe i q)) (value_u fe j q))
                (mul mu_ (scalar_product (gradient_u fe i q) (gradient_u fe j q))))
           (mul (mul (div one mu_) (value_p fe i q)) (value_p fe j q)))
      (JxW fe q).

(** the three nested loops over [q_point], [i], [j] *)
Definition cell_loop (alpha mu_ : double) (fe : FEValues)
    : FullMatrix * FullMatrix :=
  fold_left (fun acc q =>
    fold_left (fun acc i =>
      fold_left (fun acc j =>
        (full_add acc.1 i j (jacobian_integrand alpha mu_ fe i j q),
         full_add acc.2 i j (preconditioner_integrand alpha mu_ fe i j q)))
        (seq 0 dofs_per_cell) acc)
      (seq 0 dofs_per_cell) acc)
    (seq 0 n_q_points) (∅, ∅).

(** the loop over the locally owned active cells *)
Definition assemble_cells (alpha mu_ : double) (g : Grid) (c : ConstraintMatrix)
    (J P : SparseMatrix) : SparseMatrix * SparseMatrix :=
  fold_left (fun acc cell =>
    if is_locally_owned cell then
      let fe := fe_values_reinit g cell in
      let local := cell_loop alpha mu_ fe in
      let local_dof_indices := get_dof_indices cell in
      (distribute_local_to_global_matrix c local.1 local_dof_indices acc.1,
       distribute_local_to_global_matrix c local.2 local_dof_indices acc.2)
    else acc)
    (active_cells g) (J, P).

(** [if (constraints.is_constrained(j)) jacobian_matrix.set(j, j, 1.0)] over
    [solution.locally_owned_elements()], the locally owned indices *)
Definition set_constrained_diagonal (c : ConstraintMatrix) (id : IndexSet)
    (J : SparseMatrix) : SparseMatrix :=
  fold_left (fun J j => if is_constrained c j then mat_set J j j one else J) id J.

(** [static ReductionControl solver_control_pre(5000, 1e-8)], its reduction
    factor left at the default *)
Definition solver_control_pre : SolverControl := mkSolverControl 5000 lit_1e_8.

Definition assemble_jacobian_matrix (t : double) (y y_dot : VEC) (alpha : double)
    (s : Stokes) : Stokes :=
  let J0 := mat_zero (jacobian_matrix s) in
  let c := rebuild_constraints t (grid s) in
  let tmp := distribute c y in
  let assembled :=
    assemble_cells alpha (mu (prm s)) (grid s) c
                   J0 (jacobian_preconditioner_matrix s) in
  let J1 := mat_compress vo_add assembled.1 in
  let P1 := mat_compress vo_add assembled.2 in
  let J2 := mat_compress vo_insert
              (set_constrained_diagonal c (global_partitioning s) J1) in
  (* operators setup *)
  let modes := extract_constant_modes (grid s) [true; true; false] in
  let Amg_data := mkAMGData modes true true 2 lit_0_02 in
  let Mp_pre := PreconditionJacobi (mat_block (dofs_per_block s) P1 1 1) in
  let Amg_pre := PreconditionAMG (mat_block (dofs_per_block s) P1 0 0) Amg_data in
  let A := linear_operator the_jacobian_matrix 0 0 in
  let Bt := linear_operator the_jacobian_matrix 0 1 in
  let B := linear_operator the_jacobian_matrix 1 0 in
  let ZeroP := scale_operator zero (linear_operator the_jacobian_matrix 1 1) in
  let Mp := linear_operator the_jacobian_preconditioner_matrix 1 1 in
  let A_inv := inverse_operator A solver_control_pre Amg_pre in
  let Schur_inv := inverse_operator Mp solver_control_pre Mp_pre in
  let P00 := A_inv in
  let P01 := null_operator Bt in
  let P10 := compose_operator (compose_operator Schur_inv B) A_inv in
  let P11 := scale_operator minus_one Schur_inv in
  {| prm := prm s;
     grid := grid s;
     dirichlet_bcs_time := t;
     forcing_term_time := forcing_term_time s;
     exact_solution_time := t;
     dofs_per_block := dofs_per_block s;
     global_partitioning := global_partitioning s;
     constraints := c;
     jacobian_matrix := J2;
     jacobian_preconditioner_matrix := P1;
     solution := solution s;
     solution_dot := solution_dot s;
     distributed_solution := tmp;
     distributed_solution_dot := y_dot;
     Mp_preconditioner := Some Mp_pre;
     Amg_preconditioner := Some Amg_pre;
     jacobian_op := block_operator A Bt B ZeroP;
     jacobian_preconditioner_op := block_operator P00 P01 P10 P11;
     calls := calls s |}.

(** *** [setup_jacobian] *)

Definition setup_jacobian (t : double) (src_yy src_yp : VEC) (unnamed : VEC)
    (alpha : double) (s : Stokes) : Z * Stokes :=
  (0%Z, assemble_jacobian_matrix t src_yy src_yp alpha s).

(** *** [residual] *)

(** the loops over [q_point] and [i] filling [cell_rhs] *)
Definition cell_rhs_loop (mu_ : double) (t_forcing : double) (fe : FEValues)
    (dsol dsol_dot : VEC) : list double :=
  let rhs_values :=
    forcing_term_vector_value_list t_forcing (get_quadrature_points fe) in
  let grad_sols := get_function_symmetric_gradients_u fe dsol in
  let sols_dot := get_function_values_u fe dsol_dot in
  let div_us := get_function_divergences_u fe dsol in
  let ps := get_function_values_p fe dsol in
  fold_left (fun cell_rhs q =>
    fold_left (fun cell_rhs i =>
      let cell_rhs1 :=
        vec_set cell_rhs i
          (add (vec_get cell_rhs i)
               (mul (sub (sub (add (dot1 (sols_dot q) (value_u fe i q))
                                   (mul mu_ (sym_contract (grad_sols q)
                                               (symmetric_gradient_u fe i q))))
                              (mul (ps q) (divergence_u fe i q)))
                         (mul (div_us q) (value_p fe i q)))
                    (JxW fe q))) in
      let comp_i := system_to_component_index i in
      if comp_i <? 2 then
        vec_set cell_rhs1 i
          (sub (vec_get cell_rhs1 i)
               (mul (mul (rhs_values q comp_i) (component (value_u fe i q) comp_i))
                    (JxW fe q)))
      else cell_rhs1)
      (seq 0 dofs_per_cell) cell_rhs)
    (seq 0 n_q_points) (replicate dofs_per_cell zero).

Definition assemble_residual (mu_ t_forcing : double) (g : Grid)
    (c : ConstraintMatrix) (dsol dsol_dot : VEC) (dst : VEC) : VEC :=
  fold_left (fun dst cell =>
    if is_locally_owned cell then
      let fe := fe_values_reinit g cell in
      let local_dof_indices := get_dof_indices cell in
      let cell_rhs := cell_rhs_loop mu_ t_forcing fe dsol dsol_dot in
      distribute_local_to_global_vector c cell_rhs local_dof_indices dst
    else dst)
    (active_cells g) dst.

(** [if (constraints.is_constrained(j)) dst[j] = solution(j) -
    distributed_solution(j)] over the locally owned indices.  The vectors
    the integrator hands in are copies of the member [solution]
    ([create_new_vector]), so their [locally_owned_elements()] is
    [global_partitioning]. *)
Definition overwrite_constrained (c : ConstraintMatrix) (id : IndexSet)
    (y dsol : VEC) (dst : VEC) : VEC :=
  fold_left (fun dst j =>
    if is_constrained c j
    then vec_set dst j (sub (vec_get y j) (vec_get dsol j))
    else dst) id dst.

Definition residual (t : double) (y y_dot : VEC) (dst : VEC) (s : Stokes)
    : Z * VEC * Stokes :=
  let c := rebuild_constraints t (grid s) in
  let tmp := distribute c y in
  let dst0 := vec_zero dst in
  let dst1 := vec_compress vo_add
                (assemble_residual (mu (prm s)) t (grid s) c tmp y_dot dst0) in
  let dst2 := vec_compress vo_insert
                (overwrite_constrained c (global_partitioning s) y tmp dst1) in
  (0%Z, dst2,
   {| prm := prm s;
      grid := grid s;
      dirichlet_bcs_time := t;
      forcing_term_time := t;
      exact_solution_time := t;
      dofs_per_block := dofs_per_block s;
      global_partitioning := global_partitioning s;
      constraints := c;
      jacobian_matrix := jacobian_matrix s;
      jacobian_preconditioner_matrix := jacobian_preconditioner_matrix s;
      solution := solution s;
      solution_dot := solution_dot s;
      distributed_solution := tmp;
      distributed_solution_dot := y_dot;
      Mp_preconditioner := Mp_preconditioner s;
      Amg_preconditioner := Amg_preconditioner s;
      jacobian_op := jacobian_op s;
      jacobian_preconditioner_op := jacobian_preconditioner_op s;
      calls := calls s |}).

(** the vector [residual] writes to [dst] *)
Definition residual_dst (t : double) (y y_dot dst : VEC) (s : Stokes) : VEC :=
  (residual t y y_dot dst s).1.2.
(** the object after [residual] *)
Definition residual_state (t : double) (y y_dot dst : VEC) (s : Stokes) : Stokes :=
  (residual t y y_dot dst s).2.

(** *** [set_constrained_dofs_to_zero] *)

Definition set_constrained_dofs_to_zero (s : Stokes) (v : VEC) : VEC :=
  fold_left (fun v j =>
    if is_constrained (constraints s) j then vec_set v j zero else v)
    (global_partitioning s) v.

(** *** [solve_jacobian_system] *)

(** How the call ends: [return status] with the vector left in [dst] and
    what was printed after " iterations: ", or an exception leaving the
    function. *)
Inductive SolveResult : Type :=
  | returns (status : Z) (dst : VEC) (printed_iterations : option nat)
  | throws (e : Exception) (dst : VEC).

(** One run of the flexible GMRES solver: its control, its additional
    data and the vector it finds in [dst]. *)
Definition SolverRun : Type := SolverControl * FGMRESAdditionalData * VEC.

(** [inverse_operator(jacobian_op, solver, jacobian_preconditioner_op)
    .vmult(dst, src)] for the solver described by [run] *)
Definition S_inv_vmult (s : Stokes) (run : SolverRun) (src : VEC) : SolveOutcome :=
  SolverFGMRES_vmult run.1.1 run.1.2
    (jacobian_op s) (jacobian_preconditioner_op s)
    (jacobian_matrix s) (jacobian_preconditioner_matrix s)
    (dofs_per_block s) run.2 src.

Definition solver_tolerance : double := lit_1e_8.

(** [solver] with [solver_control] *)
Definition first_run (s : Stokes) (dst : VEC) : SolverRun :=
  (mkSolverControl 30 solver_tolerance, mkFGMRESData 30 true, dst).

(** [solver_refined] with [solver_control_refined] *)
Definition refined_run (s : Stokes) (dst : VEC) : SolverRun :=
  (mkSolverControl (mat_m (jacobian_matrix s)) solver_tolerance,
   mkFGMRESData 50 true, dst).

(** The result, together with the solver runs in the order they were made.
    Only [src] and [dst] of the seven arguments are read. *)
Definition solve_jacobian_system (t : double) (y y_dot : VEC) (unnamed : VEC)
    (alpha : double) (src dst : VEC) (s : Stokes)
    : list SolverRun * SolveResult :=
  let dst0 := set_constrained_dofs_to_zero s dst in
  match S_inv_vmult s (first_run s dst0) src with
  | solve_returns d n =>
      ([first_run s dst0],
       returns 0 (set_constrained_dofs_to_zero s d) (Some n))
  | solve_throws NoConvergence d n =>
      match S_inv_vmult s (refined_run s d) src with
      | solve_returns d' n' =>
          ([first_run s dst0; refined_run s d],
           returns 0 (set_constrained_dofs_to_zero s d') (Some (n + n')))
      | solve_throws NoConvergence d' _ =>
          ([first_run s dst0; refined_run s d], returns 1 d' None)
      | solve_throws e d' _ =>
          ([first_run s dst0; refined_run s d], throws e d')
      end
  | solve_throws e d _ =>
      ([first_run s dst0], throws e d)
  end.

(** *** [differential_components] *)

Definition differential_components (s : Stokes) : VEC :=
  let diff_comps := vec_zero (solution s) in
  let diff_comps := set_block (dofs_per_block s) 0 one diff_comps in
  let diff_comps := set_block (dofs_per_block s) 1 zero diff_comps in
  set_constrained_dofs_to_zero s diff_comps.

(** *** [solver_should_restart] *)

(** [Vector<float>::linfty_norm()] *)
Definition linfty_norm (v : list double) : double :=
  fold_left (fun m x => Double.max (abs x) m) v zero.

(** [Utilities::MPI::max(x, comm)], [x r] being the value rank [r] passes *)
Definition Utilities_MPI_max (x : nat -> double) : double :=
  fold_left (fun m r => Double.max m (x r)) (seq 1 (n_mpi_processes - 1)) (x 0).

(** the velocity components of [u, u, p] *)
Definition kelly_mask : list bool := <[2 := false]> (replicate 3 true).

(** [max_kelly] after the reduction over the ranks: every rank estimates on
    its own subdomain and takes the largest absolute indicator *)
Definition global_max_kelly (g : Grid) (u : VEC) : double :=
  Utilities_MPI_max
    (fun r => linfty_norm (KellyErrorEstimator_estimate g u kelly_mask r)).

(** The function is called on the members [solution] and [solution_dot]:
    [run] hands them to the integrator by reference and the integrator
    passes them back.  [t], [step_number] and [h] are not read. *)
Definition solver_should_restart (t : double) (step_number : nat) (h : double)
    (s : Stokes) : bool * Stokes :=
  if use_space_adaptivity (prm s) then
    let tmp_c := distribute (constraints s) (solution s) in
    let estimated_error_per_cell :=
      KellyErrorEstimator_estimate (grid s) tmp_c kelly_mask
                                   (locally_owned_subdomain (grid s)) in
    let max_kelly := global_max_kelly (grid s) tmp_c in
    if ltb (kelly_threshold (prm s)) max_kelly then
      let g1 :=
        if (max_cells (prm s) <? 0)%Z
        then refine_and_coarsen_fixed_fraction (grid s) estimated_error_per_cell
               (top_fraction (prm s)) (bottom_fraction (prm s))
        else refine_and_coarsen_fixed_number (grid s) estimated_error_per_cell
               (top_fraction (prm s)) (bottom_fraction (prm s))
               (max_cells (prm s)) in
      let mark :=
        if (max_cells (prm s) <? 0)%Z
        then call_refine_and_coarsen_fixed_fraction estimated_error_per_cell
               (top_fraction (prm s)) (bottom_fraction (prm s))
        else call_refine_and_coarsen_fixed_number estimated_error_per_cell
               (top_fraction (prm s)) (bottom_fraction (prm s))
               (max_cells (prm s)) in
      let sol := tmp_c (* VEC sol (distributed_solution) *) in
      let sol_dot := distributed_solution_dot s in
      let sol := vec_assign sol (solution s) in
      let sol_dot := vec_assign sol_dot (solution_dot s) in
      let g2 := prepare_coarsening_and_refinement g1 in
      let g3 := prepare_for_coarsening_and_refinement g2 sol in
      let g4 := prepare_for_coarsening_and_refinement g3 sol_dot in
      let g5 := if adaptive_refinement (prm s)
                then execute_coarsening_and_refinement g4
                else refine_global 1 g4 in
      let change := if adaptive_refinement (prm s)
                    then call_execute_coarsening_and_refinement
                    else call_refine_global 1 in
      let s1 :=
        setup_dofs false
          {| prm := prm s;
             grid := g5;
             dirichlet_bcs_time := dirichlet_bcs_time s;
             forcing_term_time := forcing_term_time s;
             exact_solution_time := exact_solution_time s;
             dofs_per_block := dofs_per_block s;
             global_partitioning := global_partitioning s;
             constraints := constraints s;
             jacobian_matrix := jacobian_matrix s;
             jacobian_preconditioner_matrix := jacobian_preconditioner_matrix s;
             solution := solution s;
             solution_dot := solution_dot s;
             distributed_solution := tmp_c;
             distributed_solution_dot := distributed_solution_dot s;
             Mp_preconditioner := Mp_preconditioner s;
             Amg_preconditioner := Amg_preconditioner s;
             jacobian_op := jacobian_op s;
             jacobian_preconditioner_op := jacobian_preconditioner_op s;
             calls := calls s ++
               [call_estimate tmp_c kelly_mask; mark;
                call_prepare_coarsening_and_refinement;
                call_prepare_for_coarsening_and_refinement sol;
                call_prepare_for_coarsening_and_refinement sol_dot;
                change] |} in
      let tmp := SolutionTransfer_interpolate (grid s1) 0 (solution s1) in
      let tmp_dot := SolutionTransfer_interpolate (grid s1) 1 (solution_dot s1) in
      (true,
       {| prm := prm s1;
          grid := grid s1;
          dirichlet_bcs_time := dirichlet_bcs_time s1;
          forcing_term_time := forcing_term_time s1;
          exact_solution_time := exact_solution_time s1;
          dofs_per_block := dofs_per_block s1;
          global_partitioning := global_partitioning s1;
          constraints := constraints s1;
          jacobian_matrix := jacobian_matrix s1;
          jacobian_preconditioner_matrix := jacobian_preconditioner_matrix s1;
          solution := distribute (constraints s1) tmp;
          solution_dot := tmp_dot;
          distributed_solution := distributed_solution s1;
          distributed_solution_dot := distributed_solution_dot s1;
          Mp_preconditioner := Mp_preconditioner s1;
          Amg_preconditioner := Amg_preconditioner s1;
          jacobian_op := jacobian_op s1;
          jacobian_preconditioner_op := jacobian_preconditioner_op s1;
          calls := calls s1 ++
            [call_interpolate 0; call_interpolate 1; call_distribute tmp;
             call_barrier] |})
    else
      (false,
       {| prm := prm s;
          grid := grid s;
          dirichlet_bcs_time := dirichlet_bcs_time s;
          forcing_term_time := forcing_term_time s;
          exact_solution_time := exact_solution_time s;
          dofs_per_block := dofs_per_block s;
          global_partitioning := global_partitioning s;
          constraints := constraints s;
          jacobian_matrix := jacobian_matrix s;
          jacobian_preconditioner_matrix := jacobian_preconditioner_matrix s;
          solution := solution s;
          solution_dot := solution_dot s;
          distributed_solution := tmp_c;
          distributed_solution_dot := distributed_solution_dot s;
          Mp_preconditioner := Mp_preconditioner s;
          Amg_preconditioner := Amg_preconditioner s;
          jacobian_op := jacobian_op s;
          jacobian_preconditioner_op := jacobian_preconditioner_op s;
          calls := calls s ++ [call_estimate tmp_c kelly_mask] |})
  else (false, s).

End Model.

Arguments Stokes {L}.
Arguments mkStokes {L}.

(** ** A reference instance of the interface

    One rank, one cell with three degrees of freedom (two velocity
    components and one pressure), one quadrature point.  The boundary
    condition at time [t] is the single line [x_0 = t]; there are no
    hanging nodes.  A mesh is its refinement count together with the
    vectors attached for transfer; a transfer hands back the attached
    vector.  The Krylov solver returns the right-hand side when its basis
    is wide enough. *)

Module Reference.

Record grid_t : Type := mkGrid {
  refinements : nat;
  flagged : bool;
  attached : list VEC
}.

Definition three : double := S754_finite false 6755399441055744 (-51).

Definition fe : FEValues :=
  {| value_u := fun k _ =>
       match k with 0 => (one, zero) | 1 => (zero, one) | _ => (zero, zero) end;
     symmetric_gradient_u := fun k _ =>
       match k with 0 => (one, zero, zero) | 1 => (zero, one, zero)
                  | _ => (zero, zero, zero) end;
     gradient_u := fun k _ =>
       match k with 0 => ((one, zero), (zero, zero))
                  | 1 => ((zero, zero), (zero, one))
                  | _ => ((zero, zero), (zero, zero)) end;
     divergence_u := fun k _ => match k with 0 | 1 => one | _ => zero end;
     value_p := fun k _ => match k with 2 => one | _ => zero end;
     JxW := fun _ => one;
     get_quadrature_points := [(zero, zero)];
     get_function_symmetric_gradients_u := fun v _ =>
       (vec_get v 0, vec_get v 1, zero);
     get_function_values_u := fun v _ => (vec_get v 0, vec_get v 1);
     get_function_divergences_u := fun v _ => add (vec_get v 0) (vec_get v 1);
     get_function_values_p := fun v _ => vec_get v 2 |}.

(** the rows (or columns) a local index scatters to, with their weights *)
Definition targets (c : ConstraintMatrix) (g : nat) : list (nat * double) :=
  match List.find (fun l => line l =? g) c with
  | Some l => entries l
  | None => [(g, one)]
  end.

Definition l2g_vector (c : ConstraintMatrix) (cell_rhs : list double)
    (idx : list nat) (dst : VEC) : VEC :=
  fold_left (fun dst i =>
    fold_left (fun dst e =>
        vec_set dst e.1 (add (vec_get dst e.1) (mul e.2 (vec_get cell_rhs i))))
      (targets c (default 0 (idx !! i))) dst)
    (seq 0 (length idx)) dst.

Definition l2g_matrix (c : ConstraintMatrix) (local : FullMatrix)
    (idx : list nat) (M : SparseMatrix) : SparseMatrix :=
  fold_left (fun M i =>
    let gi := default 0 (idx !! i) in
    let M' :=
      fold_left (fun M j =>
        fold_left (fun M r =>
          fold_left (fun M k =>
              mat_add M r.1 k.1 (mul (mul r.2 k.2) (full_get local i j)))
            (targets c (default 0 (idx !! j))) M)
          (targets c gi) M)
        (seq 0 (length idx)) M in
    if is_constrained c gi
    then mat_add M' gi gi (abs (full_get local i i))
    else M')
    (seq 0 (length idx)) M.

(** iterations the toy solver needs: twenty for every entry [1.0] of the
    right-hand side *)
Definition needed (src : VEC) : nat :=
  20 * length (filter (fun x => x = one) src).

(** converges when the Krylov basis is wide enough for [needed src] *)
Definition fgmres (control : SolverControl) (data : FGMRESAdditionalData)
    (op pre : LinearOperator) (J P : SparseMatrix) (dpb : list nat)
    (dst src : VEC) : SolveOutcome :=
  match src with
  | [] => solve_throws (OtherException 0) dst 0
  | _ =>
    if needed src <=? max_basis_size data
    then solve_returns src (needed src)
    else solve_throws NoConvergence dst (max_steps control)
  end.

#[export] Instance dealii : DealII :=
  {| Grid := grid_t;
     Cell := unit;
     dofs_per_cell := 3;
     n_q_points := 1;
     system_to_component_index := fun i => i;
     distribute_dofs := fun g => g;
     n_dofs := fun _ => 3;
     count_dofs_per_block := fun _ => [2; 1];
     locally_owned_dofs := fun _ => [0; 1; 2];
     active_cells := fun _ => [tt];
     is_locally_owned := fun _ => true;
     get_dof_indices := fun _ => [0; 1; 2];
     fe_values_reinit := fun _ _ => fe;
     extract_constant_modes := fun _ mask => [mask];
     make_sparsity_pattern := fun _ _ _ =>
       [(0,0); (0,1); (0,2); (1,0); (1,1); (1,2); (2,0); (2,1); (2,2)];
     make_hanging_node_constraints := fun _ c => c;
     interpolate_boundary_values := fun t _ c => c ++ [mkLine 0 [] t];
     close := fun c => c;
     distribute_local_to_global_vector := l2g_vector;
     distribute_local_to_global_matrix := l2g_matrix;
     VectorTools_interpolate := fun _ _ v => v;
     forcing_term_vector_value_list := fun _ _ _ _ => zero;
     n_active_cells := fun _ => 1;
     n_mpi_processes := 1;
     locally_owned_subdomain := fun _ => 0;
     KellyErrorEstimator_estimate := fun _ u _ _ => [vec_get u 1];
     refine_and_coarsen_fixed_fraction := fun g _ _ _ =>
       mkGrid (refinements g) true (attached g);
     refine_and_coarsen_fixed_number := fun g _ _ _ _ =>
       mkGrid (refinements g) true (attached g);
     prepare_coarsening_and_refinement := fun g => g;
     execute_coarsening_and_refinement := fun g =>
       mkGrid (if flagged g then S (refinements g) else refinements g)
              false (attached g);
     refine_global := fun n g =>
       mkGrid (n + refinements g) false (attached g);
     prepare_for_coarsening_and_refinement := fun g v =>
       mkGrid (refinements g) (flagged g) (attached g ++ [v]);
     SolutionTransfer_interpolate := fun g k out =>
       default out (attached g !! k);
     SolverFGMRES_vmult := fgmres |}.

Definition parameters (adaptive space : bool) (threshold : double)
    (cells : Z) : Parameters :=
  {| initial_global_refinement := 1;
     max_time_iterations := 100;
     adaptive_refinement := adaptive;
     use_direct_solver := true;
     use_space_adaptivity := space;
     kelly_threshold := threshold;
     max_cells := cells;
     top_fraction := one;
     bottom_fraction := zero;
     mu := one |}.

(** the members before [setup_dofs] has run *)
Definition created (p : Parameters) : Stokes :=
  {| prm := p;
     grid := mkGrid 0 false [];
     dirichlet_bcs_time := zero;
     forcing_term_time := zero;
     exact_solution_time := zero;
     dofs_per_block := [];
     global_partitioning := [];
     constraints := [];
     jacobian_matrix := mkSparseMatrix 0 ∅;
     jacobian_preconditioner_matrix := mkSparseMatrix 0 ∅;
     solution := [];
     solution_dot := [];
     distributed_solution := [];
     distributed_solution_dot := [];
     Mp_preconditioner := None;
     Amg_preconditioner := None;
     jacobian_op := default_operator;
     jacobian_preconditioner_op := default_operator;
     calls := [] |}.

(** the state after [setup_dofs(true)], as [run] builds it *)
Definition initial (p : Parameters) : Stokes := setup_dofs true (created p).

(** the same state with the members [solution] and [solution_dot] replaced,
    as the integrator leaves it after a step *)
Definition with_solution (y y_dot : VEC) (s : Stokes) : Stokes :=
  {| prm := prm s;
     grid := grid s;
     dirichlet_bcs_time := dirichlet_bcs_time s;
     forcing_term_time := forcing_term_time s;
     exact_solution_time := exact_solution_time s;
     dofs_per_block := dofs_per_block s;
     global_partitioning := global_partitioning s;
     constraints := constraints s;
     jacobian_matrix := jacobian_matrix s;
     jacobian_preconditioner_matrix := jacobian_preconditioner_matrix s;
     solution := y;
     solution_dot := y_dot;
     distributed_solution := distributed_solution s;
     distributed_solution_dot := distributed_solution_dot s;
     Mp_preconditioner := Mp_preconditioner s;
     Amg_preconditioner := Amg_preconditioner s;
     jacobian_op := jacobian_op s;
     jacobian_preconditioner_op := jacobian_preconditioner_op s;
     calls := calls s |}.

(** adaptivity on, threshold [0.0], no bound on the number of cells *)
Definition adaptive_run : Stokes := initial (parameters true true zero (-1)).
(** "Refine mesh during transient" off *)
Definition fixed_mesh_run : Stokes := initial (parameters true false zero (-1)).

Definition ones : VEC := [one; one; one].
Definition threes : VEC := [three; three; three].
Definition zeros : VEC := [zero; zero; zero].

(** the object after a step that left [solution = (3, 1, 1)], which breaks
    the boundary line [x_0 = 0], and [solution_dot = (3, 3, 3)] *)
Definition after_step : Stokes := with_solution [three; one; one] threes adaptive_run.

(** the object after one and after two calls
    [setup_jacobian(1.0, (3,1,1), (0,0,0), _, 2.0)] *)
Definition setup_once : Stokes :=
  (setup_jacobian one [three; one; one] zeros [] two adaptive_run).2.
Definition setup_twice : Stokes :=
  (setup_jacobian one [three; one; one] zeros [] two setup_once).2.

End Reference.

(** ** The rest of the class

    [make_grid_fe], [create_new_vector], [n_dofs] and [output_step], with
    what they need from the library beyond [DealII]. *)

(** a constraint set after [close()]: no degree of freedom has two lines,
    every line is a degree of freedom below [n], and the lines refer to
    unconstrained degrees of freedom only *)
Definition is_closed (c : ConstraintMatrix) (n : nat) : bool :=
  bool_decide (NoDup (line <$> c))
  && forallb (fun l =>
       (line l <? n)
       && forallb (fun e : nat * double => negb (is_constrained c e.1)) (entries l))
     c.

Module Names.
Import String.
(** [name += "_dot"] *)
Definition add_dot (name : string) : string := append name "_dot".
(** [print(names, ",")] *)
Definition print (names : list string) : string := concat "," names.
End Names.

(** the literals [0.2] and [1e-6] *)
Definition lit_0_2 : double := S754_finite false 7205759403792794 (-55).
Definition lit_1e_6 : double := S754_finite false 4722366482869645 (-72).

Class DealIIMesh (L : DealII) : Type := {
  Face : Type;
  Face_eq_dec :: EqDecision Face;
  Manifold : Type;
  (* [pgg.distributed(comm)] *)
  pgg_distributed : Grid;
  (* [cell->face(v)], [face->center()], [p.distance(q)] *)
  face : Cell -> nat -> Face;
  face_center : Face -> Tensor1;
  distance : Tensor1 -> Tensor1 -> double;
  SphericalManifold : Tensor1 -> Manifold;
  manifold_id : Grid -> Face -> nat;
  set_manifold_id : Grid -> Face -> nat -> Grid;
  set_manifold : Grid -> nat -> Manifold -> Grid
}.

(** [fe_builder.get_component_names()] and [Utilities::split_string_list] *)
Class ComponentNames : Type := {
  get_component_names : String.string;
  split_string_list : String.string -> list String.string
}.

(** Setting the manifold id of one face changes the id of that face only,
    and attaching a manifold description changes no id. *)
Class DealIIMeshLaws (L : DealII) (M : DealIIMesh L) : Prop := {
  manifold_id_set_manifold_id :
    forall g f m f',
      manifold_id (set_manifold_id g f m) f'
      = if decide (f = f') then m else manifold_id g f';
  manifold_id_set_manifold :
    forall g n d f, manifold_id (set_manifold g n d) f = manifold_id g f
}.

(** What [output_step] hands to [data_out] and to the error table. *)
Inductive Output : Type :=
  | out_prepare_data_output (step_number : nat)
  | out_add_data_vector (v : VEC) (names : String.string)
  | out_write_data_and_clear
  | out_error_from_exact (v : VEC) (exact_solution_at : double).

Section Rest.

Context `{L : DealII} `{M : !DealIIMesh L} `{N : ComponentNames}.

(** *** [make_grid_fe] *)

(** [GeometryInfo<2>::faces_per_cell] *)
Definition faces_per_cell : nat := 4.

Definition center : Tensor1 := (zero, zero).
Definition inner_radius : double := lit_0_2.

(** [std::fabs(distance_from_center) < inner_radius + 1e-6] *)
Definition near_inner_circle (f : Face) : bool :=
  ltb (abs (distance center (face_center f))) (add inner_radius lit_1e_6).

(** the loop over [v]; it ends at the first face near the inner circle *)
Fixpoint face_loop (g : Grid) (cell : Cell) (vs : list nat) : Grid :=
  match vs with
  | [] => g
  | v :: vs =>
      if near_inner_circle (face cell v)
      then set_manifold_id g (face cell v) 99 (* break *)
      else face_loop g cell vs
  end.

(** the loop over the active cells *)
Definition cell_manifold_loop (g : Grid) (cells : list Cell) : Grid :=
  fold_left (fun g cell =>
    set_manifold (face_loop g cell (seq 0 faces_per_cell)) 99
                 (SphericalManifold center))
    cells g.

Definition make_grid_fe (s : Stokes) : Stokes :=
  let triangulation := pgg_distributed in
  let marked := cell_manifold_loop triangulation (active_cells triangulation) in
  {| prm := prm s;
     grid := refine_global (initial_global_refinement (prm s)) marked;
     dirichlet_bcs_time := dirichlet_bcs_time s;
     forcing_term_time := forcing_term_time s;
     exact_solution_time := exact_solution_time s;
     dofs_per_block := dofs_per_block s;
     global_partitioning := global_partitioning s;
     constraints := constraints s;
     jacobian_matrix := jacobian_matrix s;
     jacobian_preconditioner_matrix := jacobian_preconditioner_matrix s;
     solution := solution s;
     solution_dot := solution_dot s;
     distributed_solution := distributed_solution s;
     distributed_solution_dot := distributed_solution_dot s;
     Mp_preconditioner := Mp_preconditioner s;
     Amg_preconditioner := Amg_preconditioner s;
     jacobian_op := jacobian_op s;
     jacobian_preconditioner_op := jacobian_preconditioner_op s;
     calls := calls s |}.

(** *** [create_new_vector], [n_dofs] *)

Definition create_new_vector (s : Stokes) : VEC := solution s.

Definition Stokes_n_dofs (s : Stokes) : nat := n_dofs (grid s).

(** *** [output_step] *)

Definition output_step (t : double) (y y_dot : VEC) (step_number : nat)
    (h : double) (s : Stokes) : list Output * Stokes :=
  let tmp := distribute (constraints s) y in
  let sol_dot_names :=
    Names.add_dot <$> split_string_list get_component_names in
  ([out_prepare_data_output step_number;
    out_add_data_vector tmp get_component_names;
    out_add_data_vector y_dot (Names.print sol_dot_names);
    out_write_data_and_clear;
    out_error_from_exact tmp (exact_solution_time s)],
   {| prm := prm s;
      grid := grid s;
      dirichlet_bcs_time := dirichlet_bcs_time s;
      forcing_term_time := forcing_term_time s;
      exact_solution_time := exact_solution_time s;
      dofs_per_block := dofs_per_block s;
      global_partitioning := global_partitioning s;
      constraints := constraints s;
      jacobian_matrix := jacobian_matrix s;
      jacobian_preconditioner_matrix := jacobian_preconditioner_matrix s;
      solution := solution s;
      solution_dot := solution_dot s;
      distributed_solution := tmp;
      distributed_solution_dot := y_dot;
      Mp_preconditioner := Mp_preconditioner s;
      Amg_preconditioner := Amg_preconditioner s;
      jacobian_op := jacobian_op s;
      jacobian_preconditioner_op := jacobian_preconditioner_op s;
      calls := calls s |}).

End Rest.

(** A second instance, for [make_grid_fe]: a mesh is the table of the
    manifold ids of its faces.  There are two cells, with the faces
    0, 1, 2, 3 and 4, 2, 5, 6; the centres of the faces 1, 2 and 4 are at
    distance 0.2 from the origin, the others at distance 1.0. *)
Module ReferenceMesh.

Definition faces_of (cell : nat) : list nat :=
  match cell with
  | 0 => [0; 1; 2; 3]
  | _ => [4; 2; 5; 6]
  end.

Definition centre_of (f : nat) : Tensor1 :=
  match f with
  | 1 | 2 | 4 => (lit_0_2, zero)
  | _ => (one, zero)
  end.

Definition dealii : DealII :=
  {| Grid := gmap nat nat;
     Cell := nat;
     dofs_per_cell := 0;
     n_q_points := 0;
     system_to_component_index := fun i => i;
     distribute_dofs := fun g => g;
     n_dofs := fun _ => 0;
     count_dofs_per_block := fun _ => [0; 0];
     locally_owned_dofs := fun _ => [];
     active_cells := fun _ => [0; 1];
     is_locally_owned := fun _ => true;
     get_dof_indices := fun _ => [];
     fe_values_reinit := fun _ _ => Reference.fe;
     extract_constant_modes := fun _ mask => [mask];
     make_sparsity_pattern := fun _ _ _ => [];
     make_hanging_node_constraints := fun _ c => c;
     interpolate_boundary_values := fun _ _ c => c;
     close := fun c => c;
     distribute_local_to_global_vector := fun _ _ _ v => v;
     distribute_local_to_global_matrix := fun _ _ _ m => m;
     VectorTools_interpolate := fun _ _ v => v;
     forcing_term_vector_value_list := fun _ _ _ _ => zero;
     n_active_cells := fun _ => 2;
     n_mpi_processes := 1;
     locally_owned_subdomain := fun _ => 0;
     KellyErrorEstimator_estimate := fun _ _ _ _ => [zero; zero];
     refine_and_coarsen_fixed_fraction := fun g _ _ _ => g;
     refine_and_coarsen_fixed_number := fun g _ _ _ _ => g;
     prepare_coarsening_and_refinement := fun g => g;
     execute_coarsening_and_refinement := fun g => g;
     refine_global := fun _ g => g;
     prepare_for_coarsening_and_refinement := fun g _ => g;
     SolutionTransfer_interpolate := fun _ _ out => out;
     SolverFGMRES_vmult := Reference.fgmres |}.

(** no face has a manifold id yet *)
Definition coarse_mesh : gmap nat nat := ∅.

Definition mesh : DealIIMesh dealii :=
  @Build_DealIIMesh dealii
    nat _ Tensor1
    coarse_mesh
    (fun cell v => default 0 (faces_of cell !! v))
    centre_of
    (fun _ q => q.1)
    (fun c => c)
    (fun (g : gmap nat nat) f => default 0 (g !! f))
    (fun (g : gmap nat nat) f m => <[f := m]> g)
    (fun g _ _ => g).

End ReferenceMesh.

Module ReferenceNames.
Import String.
(** the names of the element [FESystem[FE_Q(2)^dim-FE_Q(1)]] *)
Definition names : ComponentNames :=
  {| get_component_names := "u,u,p"%string;
     split_string_list := fun _ => ["u"%string; "u"%string; "p"%string] |}.
End ReferenceNames.

(** ** Properties *)

(** *** IEEE arithmetic *)

Lemma sub_diag (x : double) : is_finite x = true -> sub x x = zero.
Proof.
  destruct x as [s| s| |s m e]; simpl; intros Hx; try discriminate.
  - by destruct s.
  - unfold sub, SFsub. by rewrite Z.sub_diag.
Qed.

(** *** Constraints *)

Lemma distribute_length (cm : ConstraintMatrix) (v : VEC) :
  length (distribute cm v) = length v.
Proof.
  unfold distribute. revert v.
  induction cm as [|l cm IH]; intros v; simpl; [done|].
  rewrite IH. apply length_insert.
Qed.

(** A vector that satisfies the constraints is a fixed point of
    [distribute]. *)
Lemma distribute_satisfied (cm : ConstraintMatrix) (v : VEC) :
  satisfies_constraints cm v -> distribute cm v = v.
Proof.
  unfold satisfies_constraints, distribute.
  induction 1 as [|l cm Hl _ IH]; simpl; [done|].
  unfold vec_set. by rewrite list_insert_id.
Qed.

(** *** Loops over the locally owned indices *)

Section OwnedLoop.

Variable pick : nat -> bool.
Variable value : nat -> double.

Lemma owned_loop_length (id : IndexSet) (v : VEC) :
  length (owned_loop pick value id v) = length v.
Proof.
  unfold owned_loop. revert v.
  induction id as [|k id IH]; intros v; simpl; [done|].
  rewrite IH. destruct (pick k); [apply length_insert | done].
Qed.

Lemma owned_loop_skip (id : IndexSet) (v : VEC) (j : nat) :
  pick j = false -> owned_loop pick value id v !! j = v !! j.
Proof.
  unfold owned_loop. intros Hj. revert v.
  induction id as [|k id IH]; intros v; simpl; [done|].
  rewrite IH. destruct (pick k) eqn:Hk; [|done].
  apply list_lookup_insert_ne. congruence.
Qed.

Lemma owned_loop_keep (id : IndexSet) (v : VEC) (j : nat) :
  v !! j = Some (value j) -> owned_loop pick value id v !! j = Some (value j).
Proof.
  unfold owned_loop. revert v.
  induction id as [|k id IH]; intros v Hv; simpl; [done|].
  apply IH. destruct (pick k); [|done].
  destruct (decide (k = j)) as [->|Hne].
  - apply list_lookup_insert_eq. by eapply lookup_lt_Some.
  - unfold vec_set. by rewrite list_lookup_insert_ne.
Qed.

Lemma owned_loop_hit (id : IndexSet) (v : VEC) (j : nat) :
  j ∈ id -> pick j = true -> j < length v ->
  owned_loop pick value id v !! j = Some (value j).
Proof.
  revert v. induction id as [|k id IH]; intros v Hin Hp Hlt.
  - by apply elem_of_nil in Hin.
  - change (owned_loop pick value (k :: id) v)
      with (owned_loop pick value id
              (if pick k then vec_set v k (value k) else v)).
    destruct (decide (k = j)) as [->|Hne].
    + rewrite Hp. apply owned_loop_keep.
      by apply list_lookup_insert_eq.
    + apply elem_of_cons in Hin as [?|Hin]; [congruence|].
      apply IH; [done..|].
      destruct (pick k); [by unfold vec_set; rewrite length_insert | done].
Qed.

End OwnedLoop.

Section Properties.

Context `{L : DealII} `{!DealIILaws L}.

Lemma overwrite_constrained_loop c id y dsol dst :
  overwrite_constrained c id y dsol dst
  = owned_loop (is_constrained c)
               (fun j => sub (vec_get y j) (vec_get dsol j)) id dst.
Proof. reflexivity. Qed.

Lemma set_constrained_dofs_to_zero_loop (s : Stokes) (v : VEC) :
  set_constrained_dofs_to_zero s v
  = owned_loop (is_constrained (constraints s)) (fun _ => zero)
               (global_partitioning s) v.
Proof. reflexivity. Qed.

Lemma assemble_residual_length mu_ t g c dsol dsol_dot dst :
  length (assemble_residual mu_ t g c dsol dsol_dot dst) = length dst.
Proof.
  unfold assemble_residual. generalize (active_cells g). intros cells.
  revert dst. induction cells as [|cell cells IH]; intros dst; simpl; [done|].
  rewrite IH. destruct (is_locally_owned cell); [|done].
  apply distribute_local_to_global_vector_length.
Qed.

(** C1.  After [residual(t, y, y_dot, dst)], every locally owned degree of
    freedom [j] that the constraints refreshed for time [t] constrain has
    [dst[j] = y[j] - distribute(y)[j]].  If moreover [y] satisfies the
    constraints and [y[j]] is a finite number, [dst[j]] is [+0.0]. *)
Theorem residual_constrained_rows t y y_dot dst s j :
  j ∈ global_partitioning s ->
  is_constrained (constraints (residual_state t y y_dot dst s)) j = true ->
  j < length dst ->
  residual_dst t y y_dot dst s !! j
  = Some (sub (vec_get y j)
              (vec_get (distribute (constraints (residual_state t y y_dot dst s)) y) j))
  /\ (satisfies_constraints (constraints (residual_state t y y_dot dst s)) y ->
      is_finite (vec_get y j) = true ->
      residual_dst t y y_dot dst s !! j = Some zero).
Proof.
  intros Hown Hc Hlt.
  unfold residual_dst, residual_state in *. simpl in *.
  assert (Hentry :
    vec_compress vo_insert
      (overwrite_constrained (rebuild_constraints t (grid s))
         (global_partitioning s) y
         (distribute (rebuild_constraints t (grid s)) y)
         (vec_compress vo_add
            (assemble_residual (mu (prm s)) t (grid s)
               (rebuild_constraints t (grid s))
               (distribute (rebuild_constraints t (grid s)) y) y_dot
               (vec_zero dst)))) !! j
    = Some (sub (vec_get y j)
                (vec_get (distribute (rebuild_constraints t (grid s)) y) j))).
  { unfold vec_compress. rewrite overwrite_constrained_loop.
    apply (owned_loop_hit (is_constrained (rebuild_constraints t (grid s)))
             (fun j => sub (vec_get y j)
                (vec_get (distribute (rebuild_constraints t (grid s)) y) j)));
      [done..|].
    rewrite assemble_residual_length. unfold vec_zero.
    by rewrite length_replicate. }
  split; [exact Hentry|].
  intros Hsat Hfin. rewrite Hentry.
  rewrite (distribute_satisfied _ _ Hsat). by rewrite sub_diag.
Qed.

(** C10.  [residual] and [setup_jacobian] return status [0] whatever their
    arguments are. *)
Theorem residual_and_setup_return_zero t y y_dot dst unnamed alpha (s : Stokes) :
  (residual t y y_dot dst s).1.1 = 0%Z
  /\ (setup_jacobian t y y_dot unnamed alpha s).1 = 0%Z.
Proof. split; reflexivity. Qed.

(** *** The differential / algebraic mask *)

Lemma set_block_lookup dpb b c (v : VEC) j :
  set_block dpb b c v !! j
  = (fun x => if in_block dpb b j then c else x) <$> v !! j.
Proof. unfold set_block. apply list_lookup_imap. Qed.

Lemma in_block_0_not_1 dpb j : in_block dpb 0 j = true -> in_block dpb 1 j = false.
Proof.
  unfold in_block, block_start, block_size. intros H.
  apply andb_true_iff in H as [_ H]. apply Nat.ltb_lt in H.
  apply andb_false_iff. left. apply Nat.leb_gt.
  destruct dpb as [|n0 dpb]; simpl in *; lia.
Qed.

(** C9.  In the vector returned by [differential_components], every
    unconstrained entry of the velocity block is [1.0], every entry of the
    pressure block is [+0.0], and every locally owned constrained entry is
    [+0.0] in whichever block it lies. *)
Theorem differential_components_mask (s : Stokes) (j : nat) :
  j < length (solution s) ->
  (in_block (dofs_per_block s) 0 j = true ->
   is_constrained (constraints s) j = false ->
   differential_components s !! j = Some one)
  /\ (in_block (dofs_per_block s) 1 j = true ->
      differential_components s !! j = Some zero)
  /\ (j ∈ global_partitioning s ->
      is_constrained (constraints s) j = true ->
      differential_components s !! j = Some zero).
Proof.
  intros Hlt. unfold differential_components.
  rewrite set_constrained_dofs_to_zero_loop.
  assert (Hz : vec_zero (solution s) !! j = Some zero).
  { unfold vec_zero. by apply lookup_replicate_2. }
  split; [|split].
  - intros Hu Hfree. rewrite owned_loop_skip by done.
    rewrite !set_block_lookup, Hz. simpl.
    by rewrite Hu, (in_block_0_not_1 _ _ Hu).
  - intros Hp. apply (owned_loop_keep _ (fun _ => zero)).
    rewrite !set_block_lookup, Hz. simpl. by rewrite Hp.
  - intros Hown Hc. apply (owned_loop_hit _ (fun _ => zero)); [done..|].
    unfold set_block, vec_zero.
    by rewrite !length_imap, length_replicate.
Qed.

(** *** The linear solve *)

Lemma set_constrained_dofs_to_zero_spec (s : Stokes) (v : VEC) (j : nat) :
  j ∈ global_partitioning s -> is_constrained (constraints s) j = true ->
  j < length v ->
  set_constrained_dofs_to_zero s v !! j = Some zero.
Proof.
  intros. rewrite set_constrained_dofs_to_zero_loop.
  by apply (owned_loop_hit _ (fun _ => zero)).
Qed.

(** C2.  [solve_jacobian_system] starts the flexible GMRES solver with
    iteration cap 30, tolerance 1e-8 and basis size 30 on [dst] with its
    constrained entries zeroed.  It runs the refined solver (cap: the
    number of rows of the Jacobian, tolerance 1e-8, basis size 50) once,
    and only when the first run threw [NoConvergence].  It returns 1
    exactly when both runs threw [NoConvergence]; when the last run
    returned it returns 0 with the constrained entries of the result
    zeroed; [NoConvergence] never leaves the function. *)
Theorem solve_jacobian_system_policy t y y_dot unnamed alpha src dst (s : Stokes) :
  let dst0 := set_constrained_dofs_to_zero s dst in
  let run1 := (mkSolverControl 30 lit_1e_8, mkFGMRESData 30 true, dst0) in
  let run2 d := (mkSolverControl (mat_m (jacobian_matrix s)) lit_1e_8,
                 mkFGMRESData 50 true, d) in
  let out := solve_jacobian_system t y y_dot unnamed alpha src dst s in
  (* the initial guess *)
  (forall j, j ∈ global_partitioning s ->
             is_constrained (constraints s) j = true ->
             j < length dst -> dst0 !! j = Some zero)
  (* the runs *)
  /\ match S_inv_vmult s run1 src with
     | solve_throws NoConvergence d _ => out.1 = [run1; run2 d]
     | _ => out.1 = [run1]
     end
  (* the result *)
  /\ match S_inv_vmult s run1 src with
     | solve_returns d n =>
         out.2 = returns 0 (set_constrained_dofs_to_zero s d) (Some n)
     | solve_throws NoConvergence d n =>
         match S_inv_vmult s (run2 d) src with
         | solve_returns d' n' =>
             out.2 = returns 0 (set_constrained_dofs_to_zero s d') (Some (n + n'))
         | solve_throws NoConvergence d' _ => out.2 = returns 1 d' None
         | solve_throws (OtherException w) d' _ =>
             out.2 = throws (OtherException w) d'
         end
     | solve_throws (OtherException w) d _ => out.2 = throws (OtherException w) d
     end
  /\ (forall d p j, out.2 = returns 0 d p ->
        j ∈ global_partitioning s ->
        is_constrained (constraints s) j = true ->
        j < length d -> d !! j = Some zero)
  /\ (forall st d p, out.2 = returns st d p -> st = 0%Z \/ st = 1%Z)
  /\ (forall d, out.2 <> throws NoConvergence d).
Proof.
  intros dst0 run1 run2 out.
  split; [intros; by apply set_constrained_dofs_to_zero_spec|].
  subst out. unfold solve_jacobian_system.
  change (first_run s (set_constrained_dofs_to_zero s dst)) with run1.
  destruct (S_inv_vmult s run1 src) as [d n|[|w] d n]; simpl.
  - repeat split; try done.
    + intros d0 p j [= <- _] Hj Hc Hlt.
      rewrite set_constrained_dofs_to_zero_loop in *.
      rewrite owned_loop_length in Hlt.
      by apply (owned_loop_hit _ (fun _ => zero)).
    + intros st d0 p [= <- _ _]. by left.
  - change (refined_run s d) with (run2 d).
    destruct (S_inv_vmult s (run2 d) src) as [d' n'|[|w'] d' n']; simpl.
    + repeat split; try done.
      * intros d0 p j [= <- _] Hj Hc Hlt.
        rewrite set_constrained_dofs_to_zero_loop in *.
        rewrite owned_loop_length in Hlt.
        by apply (owned_loop_hit _ (fun _ => zero)).
      * intros st d0 p [= <- _ _]. by left.
    + repeat split; try done.
      intros st d0 p [= <- _ _]. by right.
    + repeat split; done.
  - repeat split; done.
Qed.

(** *** The adaptive mesh controller *)

(** C8.  With "Refine mesh during transient" ([use_space_adaptivity])
    switched off, [solver_should_restart] returns [false] and leaves the
    object, and with it [solution], [solution_dot], the mesh and the
    discretization, as it was. *)
Theorem solver_should_restart_disabled t step_number h (s : Stokes) :
  use_space_adaptivity (prm s) = false ->
  solver_should_restart t step_number h s = (false, s).
Proof. intros H. unfold solver_should_restart. by rewrite H. Qed.

(** C5.  With space adaptivity on, [solver_should_restart] returns [true]
    exactly when the threshold is strictly below the maximum, over all
    ranks and all their cells, of the absolute Kelly indicator of the
    constraint-distributed solution with the pressure component masked
    out.  In that case the cells are marked by
    [refine_and_coarsen_fixed_fraction] if [max_cells < 0] and by
    [refine_and_coarsen_fixed_number] with [max_cells] otherwise, both with
    [top_fraction] and [bottom_fraction], and the mesh is changed;
    otherwise the mesh and the solution stay. *)
Theorem solver_should_restart_trigger t step_number h (s : Stokes) :
  use_space_adaptivity (prm s) = true ->
  let u := distribute (constraints s) (solution s) in
  let mask := [true; true; false] in
  let eta := KellyErrorEstimator_estimate (grid s) u mask
               (locally_owned_subdomain (grid s)) in
  let max_kelly :=
    Utilities_MPI_max
      (fun r => linfty_norm (KellyErrorEstimator_estimate (grid s) u mask r)) in
  let top := top_fraction (prm s) in
  let bottom := bottom_fraction (prm s) in
  let out := solver_should_restart t step_number h s in
  (out.1 = true <-> ltb (kelly_threshold (prm s)) max_kelly = true)
  /\ (out.1 = true ->
      exists mark marked,
        ((max_cells (prm s) < 0)%Z ->
         mark = call_refine_and_coarsen_fixed_fraction eta top bottom
         /\ marked = refine_and_coarsen_fixed_fraction (grid s) eta top bottom)
        /\ ((0 <= max_cells (prm s))%Z ->
            mark = call_refine_and_coarsen_fixed_number eta top bottom
                     (max_cells (prm s))
            /\ marked = refine_and_coarsen_fixed_number (grid s) eta top bottom
                          (max_cells (prm s)))
        /\ (exists rest,
              calls out.2 = calls s ++ call_estimate u mask :: mark :: rest)
        /\ grid out.2
           = distribute_dofs
               ((if adaptive_refinement (prm s)
                 then execute_coarsening_and_refinement
                 else refine_global 1)
                  (prepare_for_coarsening_and_refinement
                     (prepare_for_coarsening_and_refinement
                        (prepare_coarsening_and_refinement marked)
                        (solution s))
                     (solution_dot s))))
  /\ (out.1 = false ->
      grid out.2 = grid s
      /\ solution out.2 = solution s
      /\ solution_dot out.2 = solution_dot s
      /\ calls out.2 = calls s ++ [call_estimate u mask]).
Proof.
  intros Hon u mask eta max_kelly top bottom out. subst out.
  unfold solver_should_restart. rewrite Hon.
  change (global_max_kelly (grid s) (distribute (constraints s) (solution s)))
    with max_kelly.
  destruct (ltb (kelly_threshold (prm s)) max_kelly) eqn:Htrig; simpl.
  - split; [done|]. split; [|done]. intros _.
    destruct (max_cells (prm s) <? 0)%Z eqn:Hsign.
    + apply Z.ltb_lt in Hsign.
      exists (call_refine_and_coarsen_fixed_fraction eta top bottom),
             (refine_and_coarsen_fixed_fraction (grid s) eta top bottom).
      split; [done|]. split; [lia|]. split.
      * eexists. rewrite <- !app_assoc. reflexivity.
      * unfold vec_assign. by destruct (adaptive_refinement (prm s)).
    + apply Z.ltb_ge in Hsign.
      exists (call_refine_and_coarsen_fixed_number eta top bottom
                (max_cells (prm s))),
             (refine_and_coarsen_fixed_number (grid s) eta top bottom
                (max_cells (prm s))).
      split; [lia|]. split; [done|]. split.
      * eexists. rewrite <- !app_assoc. reflexivity.
      * unfold vec_assign. by destruct (adaptive_refinement (prm s)).
  - split; [done|]. split; [done|]. by intros _.
Qed.

(** C6 (as the code has it).  When [solver_should_restart] returns [true],
    the vectors attached to the mesh for the transfer are [solution] and
    [solution_dot] themselves, without the constraints applied, and they
    are attached after [prepare_coarsening_and_refinement]; after the mesh
    change and [setup_dofs(false)] both are interpolated, and the rebuilt
    constraints are applied to the new [solution] only: the new
    [solution_dot] is the interpolated vector. *)
Theorem solver_should_restart_transfer t step_number h (s : Stokes) :
  (solver_should_restart t step_number h s).1 = true ->
  let s' := (solver_should_restart t step_number h s).2 in
  let fresh := replicate (foldr Nat.add 0 (dofs_per_block s')) zero in
  let new_y := SolutionTransfer_interpolate (grid s') 0 fresh in
  let new_y_dot := SolutionTransfer_interpolate (grid s') 1 fresh in
  (exists estimate mark,
      calls s'
      = calls s ++
        [estimate; mark;
         call_prepare_coarsening_and_refinement;
         call_prepare_for_coarsening_and_refinement (solution s);
         call_prepare_for_coarsening_and_refinement (solution_dot s);
         (if adaptive_refinement (prm s)
          then call_execute_coarsening_and_refinement
          else call_refine_global 1);
         call_setup_dofs false;
         call_interpolate 0; call_interpolate 1;
         call_distribute new_y; call_barrier])
  /\ constraints s' = rebuild_constraints (dirichlet_bcs_time s) (grid s')
  /\ solution s' = distribute (constraints s') new_y
  /\ solution_dot s' = new_y_dot.
Proof.
  unfold solver_should_restart.
  destruct (use_space_adaptivity (prm s)); [|discriminate].
  destruct (ltb _ _); [|discriminate].
  intros _. simpl. split; [|done].
  do 2 eexists. rewrite <- !app_assoc. reflexivity.
Qed.

(** *** The cell matrices *)

Lemma full_add_get (M : FullMatrix) (i j : nat) (x : double) (i' j' : nat) :
  full_get (full_add M i j x) i' j'
  = if decide (i = i' /\ j = j') then add (full_get M i j) x else full_get M i' j'.
Proof.
  unfold full_get, full_add. case_decide as H.
  - destruct H as [-> ->]. by rewrite lookup_insert_eq.
  - rewrite lookup_insert_ne; [done|]. intros [= -> ->]. by apply H.
Qed.

Section CellLoops.

(** the summands added to the two cell matrices at one quadrature point *)
Variables F G : nat -> nat -> double.

Lemma row_loop_entry (i' : nat) (js : list nat)
    (acc : FullMatrix * FullMatrix) (i j : nat) :
  NoDup js ->
  let r := fold_left (fun acc j =>
             (full_add acc.1 i' j (F i' j), full_add acc.2 i' j (G i' j))) js acc in
  full_get r.1 i j
  = (if decide (i' = i /\ j ∈ js)
     then add (full_get acc.1 i j) (F i j) else full_get acc.1 i j)
  /\ full_get r.2 i j
     = (if decide (i' = i /\ j ∈ js)
        then add (full_get acc.2 i j) (G i j) else full_get acc.2 i j).
Proof.
  intros Hnd. revert acc.
  induction Hnd as [|j0 js Hnotin Hnd IH]; intros acc; cbn [fold_left].
  - split; case_decide as H; try done; destruct H as [_ H];
      by apply elem_of_nil in H.
  - destruct (IH (full_add acc.1 i' j0 (F i' j0), full_add acc.2 i' j0 (G i' j0)))
      as [IH1 IH2].
    cbn zeta beta iota delta [fst snd] in IH1, IH2.
    rewrite IH1, IH2, !full_add_get.
    split; repeat case_decide; try done;
      repeat match goal with
             | H : _ /\ _ |- _ => destruct H
             | H : _ ∈ _ :: _ |- _ => apply elem_of_cons in H as [?|?]
             end; subst; try done;
      exfalso;
      repeat match goal with
             | H : ¬ (_ /\ _) |- _ =>
                 apply H; split; [done|]; first [done | by left | by right]
             end.
Qed.

Lemma square_loop_entry (ks js : list nat)
    (acc : FullMatrix * FullMatrix) (i j : nat) :
  NoDup ks -> NoDup js ->
  let r := fold_left (fun acc i' =>
             fold_left (fun acc j =>
               (full_add acc.1 i' j (F i' j), full_add acc.2 i' j (G i' j)))
               js acc) ks acc in
  full_get r.1 i j
  = (if decide (i ∈ ks /\ j ∈ js)
     then add (full_get acc.1 i j) (F i j) else full_get acc.1 i j)
  /\ full_get r.2 i j
     = (if decide (i ∈ ks /\ j ∈ js)
        then add (full_get acc.2 i j) (G i j) else full_get acc.2 i j).
Proof.
  intros Hks Hjs. revert acc.
  induction Hks as [|k ks Hnotin Hks IH]; intros acc; cbn [fold_left].
  - split; case_decide as H; try done; destruct H as [H _];
      by apply elem_of_nil in H.
  - destruct (IH (fold_left (fun acc j =>
               (full_add acc.1 k j (F k j), full_add acc.2 k j (G k j)))
               js acc)) as [IH1 IH2].
    cbn zeta in IH1, IH2. rewrite IH1, IH2.
    destruct (row_loop_entry k js acc i j Hjs) as [R1 R2].
    cbn zeta in R1, R2. rewrite R1, R2.
    split; repeat case_decide; try done;
      repeat match goal with
             | H : _ /\ _ |- _ => destruct H
             | H : _ ∈ _ :: _ |- _ => apply elem_of_cons in H as [?|?]
             end; subst; try done;
      exfalso;
      repeat match goal with
             | H : ¬ (_ /\ _) |- _ =>
                 apply H; split; first [done | by left | by right]
             end.
Qed.

End CellLoops.

(** Entry [(i,j)] of [cell_matrix] and of [cell_prec] is the sum over the
    quadrature points, in their order, of the integrands. *)
Lemma cell_loop_entries alpha mu_ (fe : FEValues) (i j : nat) :
  i < dofs_per_cell -> j < dofs_per_cell ->
  full_get (cell_loop alpha mu_ fe).1 i j
  = fold_left (fun a q => add a (jacobian_integrand alpha mu_ fe i j q))
              (seq 0 n_q_points) zero
  /\ full_get (cell_loop alpha mu_ fe).2 i j
     = fold_left (fun a q => add a (preconditioner_integrand alpha mu_ fe i j q))
                 (seq 0 n_q_points) zero.
Proof.
  intros Hi Hj. unfold cell_loop.
  generalize (seq 0 n_q_points). intros qs.
  enough (Hgen : forall acc : FullMatrix * FullMatrix,
    let r := fold_left (fun acc q =>
      fold_left (fun acc i =>
        fold_left (fun acc j =>
          (full_add acc.1 i j (jacobian_integrand alpha mu_ fe i j q),
           full_add acc.2 i j (preconditioner_integrand alpha mu_ fe i j q)))
          (seq 0 dofs_per_cell) acc)
        (seq 0 dofs_per_cell) acc) qs acc in
    full_get r.1 i j
    = fold_left (fun a q => add a (jacobian_integrand alpha mu_ fe i j q))
                qs (full_get acc.1 i j)
    /\ full_get r.2 i j
       = fold_left (fun a q => add a (preconditioner_integrand alpha mu_ fe i j q))
                   qs (full_get acc.2 i j)).
  { destruct (Hgen (∅, ∅)) as [H1 H2]. cbn zeta in H1, H2.
    rewrite H1, H2. unfold full_get. simpl. by rewrite lookup_empty. }
  induction qs as [|q qs IH]; intros acc; cbn [fold_left]; [done|].
  destruct (IH (fold_left (fun acc i =>
        fold_left (fun acc j =>
          (full_add acc.1 i j (jacobian_integrand alpha mu_ fe i j q),
           full_add acc.2 i j (preconditioner_integrand alpha mu_ fe i j q)))
          (seq 0 dofs_per_cell) acc)
        (seq 0 dofs_per_cell) acc)) as [IH1 IH2].
  cbn zeta in IH1, IH2. rewrite IH1, IH2.
  destruct (square_loop_entry
              (fun i j => jacobian_integrand alpha mu_ fe i j q)
              (fun i j => preconditioner_integrand alpha mu_ fe i j q)
              (seq 0 dofs_per_cell) (seq 0 dofs_per_cell) acc i j
              (NoDup_seq _ _) (NoDup_seq _ _)) as [S1 S2].
  cbn zeta in S1, S2. rewrite S1, S2.
  assert (Hin : i ∈ seq 0 dofs_per_cell /\ j ∈ seq 0 dofs_per_cell).
  { split; apply elem_of_seq; lia. }
  by rewrite !decide_True.
Qed.

(** *** The assembled matrices *)

Lemma set_constrained_diagonal_keep c (id : IndexSet) (J : SparseMatrix) j :
  mat_get J j j = one -> mat_get (set_constrained_diagonal c id J) j j = one.
Proof.
  unfold set_constrained_diagonal. revert J.
  induction id as [|k id IH]; intros J HJ; simpl; [done|].
  apply IH. destruct (is_constrained c k); [|done].
  unfold mat_get, mat_set in *. simpl.
  destruct (decide (k = j)) as [->|Hne].
  - by rewrite lookup_insert_eq.
  - rewrite lookup_insert_ne; [done | congruence].
Qed.

Lemma set_constrained_diagonal_entry c (id : IndexSet) (J : SparseMatrix) j :
  j ∈ id -> is_constrained c j = true ->
  mat_get (set_constrained_diagonal c id J) j j = one.
Proof.
  revert J. induction id as [|k id IH]; intros J Hin Hc.
  - by apply elem_of_nil in Hin.
  - change (set_constrained_diagonal c (k :: id) J)
      with (set_constrained_diagonal c id
              (if is_constrained c k then mat_set J k k one else J)).
    destruct (decide (k = j)) as [->|Hne].
    + rewrite Hc. apply set_constrained_diagonal_keep.
      unfold mat_get, mat_set. simpl. by rewrite lookup_insert_eq.
    + apply elem_of_cons in Hin as [?|Hin]; [congruence|]. by apply IH.
Qed.

(** After [assemble_jacobian_matrix] every locally owned constrained degree
    of freedom has the diagonal entry [1.0] in the Jacobian matrix. *)
Lemma jacobian_constrained_diagonal t y y_dot alpha (s : Stokes) j :
  j ∈ global_partitioning s ->
  is_constrained (constraints (assemble_jacobian_matrix t y y_dot alpha s)) j = true ->
  mat_get (jacobian_matrix (assemble_jacobian_matrix t y y_dot alpha s)) j j = one.
Proof.
  intros Hown Hc. simpl in *. unfold mat_compress.
  by apply set_constrained_diagonal_entry.
Qed.

(** The two scatters of the cell loop do not interfere. *)
Lemma assemble_cells_split alpha mu_ g c (J P : SparseMatrix) :
  assemble_cells alpha mu_ g c J P
  = (fold_left (fun J cell =>
       if is_locally_owned cell
       then distribute_local_to_global_matrix c
              (cell_loop alpha mu_ (fe_values_reinit g cell)).1
              (get_dof_indices cell) J
       else J) (active_cells g) J,
     fold_left (fun P cell =>
       if is_locally_owned cell
       then distribute_local_to_global_matrix c
              (cell_loop alpha mu_ (fe_values_reinit g cell)).2
              (get_dof_indices cell) P
       else P) (active_cells g) P).
Proof.
  unfold assemble_cells. generalize (active_cells g). intros cells.
  revert J P. induction cells as [|cell cells IH]; intros J P; simpl; [done|].
  destruct (is_locally_owned cell); simpl; apply IH.
Qed.

(** The Jacobian matrix is scattered into a zeroed matrix; the
    preconditioner matrix is scattered into the matrix as the previous call
    left it. *)
Lemma assembled_matrices t y y_dot alpha (s : Stokes) :
  let s' := assemble_jacobian_matrix t y y_dot alpha s in
  jacobian_matrix s'
  = set_constrained_diagonal (constraints s') (global_partitioning s)
      (assemble_cells alpha (mu (prm s)) (grid s) (constraints s')
         (mat_zero (jacobian_matrix s)) (mat_zero (jacobian_matrix s))).1
  /\ jacobian_preconditioner_matrix s'
     = (assemble_cells alpha (mu (prm s)) (grid s) (constraints s')
          (jacobian_preconditioner_matrix s)
          (jacobian_preconditioner_matrix s)).2.
Proof.
  simpl. unfold mat_compress. by rewrite !assemble_cells_split.
Qed.

(** *** The block operators *)

(** C7 (as the code has it).  After [assemble_jacobian_matrix] the
    preconditioner is [[A_inv, 0], [Schur_inv * B * A_inv, -1 * Schur_inv]]
    and the Jacobian operator is [[A, Bt], [B, 0 * block(1,1)]].  [A_inv]
    is a CG solve with [A], the velocity-velocity block of the Jacobian
    matrix, preconditioned by the AMG built from the velocity-velocity
    block of the preconditioner matrix; [Schur_inv] is a CG solve with the
    pressure-pressure block of the preconditioner matrix, preconditioned by
    the Jacobi preconditioner built from the same block. *)
Theorem assemble_jacobian_matrix_operators t y y_dot alpha (s : Stokes) :
  let s' := assemble_jacobian_matrix t y y_dot alpha s in
  let P := jacobian_preconditioner_matrix s' in
  let A := linear_operator the_jacobian_matrix 0 0 in
  let Bt := linear_operator the_jacobian_matrix 0 1 in
  let B := linear_operator the_jacobian_matrix 1 0 in
  let amg :=
    PreconditionAMG (mat_block (dofs_per_block s') P 0 0)
      (mkAMGData (extract_constant_modes (grid s') [true; true; false])
                 true true 2 lit_0_02) in
  let jacobi := PreconditionJacobi (mat_block (dofs_per_block s') P 1 1) in
  let A_inv := inverse_operator A (mkSolverControl 5000 lit_1e_8) amg in
  let Schur_inv :=
    inverse_operator (linear_operator the_jacobian_preconditioner_matrix 1 1)
                     (mkSolverControl 5000 lit_1e_8) jacobi in
  jacobian_preconditioner_op s'
  = block_operator A_inv (null_operator Bt)
      (compose_operator (compose_operator Schur_inv B) A_inv)
      (scale_operator minus_one Schur_inv)
  /\ jacobian_op s'
     = block_operator A Bt B
         (scale_operator zero (linear_operator the_jacobian_matrix 1 1))
  /\ Amg_preconditioner s' = Some amg
  /\ Mp_preconditioner s' = Some jacobi.
Proof. by repeat split. Qed.

End Properties.

(** ** The model on the reference instance *)

Section Examples.

Import Reference.

Lemma l2g_vector_length (c : ConstraintMatrix) (cell_rhs : list double)
    (idx : list nat) (dst : VEC) :
  length (l2g_vector c cell_rhs idx dst) = length dst.
Proof.
  unfold l2g_vector. generalize (seq 0 (length idx)).
  intros ks. revert dst.
  induction ks as [|i ks IH]; intros dst; simpl; [done|].
  rewrite IH. generalize (targets c (default 0 (idx !! i))).
  intros ts. revert dst.
  induction ts as [|e ts IHts]; intros dst; simpl; [done|].
  rewrite IHts. unfold vec_set. apply length_insert.
Qed.

#[local] Instance dealii_laws : DealIILaws dealii.
Proof. constructor. apply l2g_vector_length. Qed.

Example residual_example :
  residual_dst one [three; one; one] zeros threes adaptive_run
  = [two; zero; S754_finite true 4503599627370496 (-51)].
Proof. vm_compute. reflexivity. Qed.

Lemma residual_constrained_rows_witness :
  0 ∈ global_partitioning adaptive_run
  /\ is_constrained (constraints (residual_state one ones zeros threes adaptive_run)) 0
     = true
  /\ 0 < length threes
  /\ satisfies_constraints
       (constraints (residual_state one ones zeros threes adaptive_run)) ones
  /\ residual_dst one ones zeros threes adaptive_run !! 0 = Some zero.
Proof.
  assert (Hown : 0 ∈ global_partitioning adaptive_run) by (vm_compute; constructor).
  assert (Hc : is_constrained
                 (constraints (residual_state one ones zeros threes adaptive_run)) 0
               = true) by reflexivity.
  assert (Hlt : 0 < length threes) by (simpl; lia).
  assert (Hsat : satisfies_constraints
                   (constraints (residual_state one ones zeros threes adaptive_run))
                   ones).
  { vm_compute. repeat constructor. }
  split; [exact Hown|]. split; [exact Hc|]. split; [exact Hlt|].
  split; [exact Hsat|].
  destruct (residual_constrained_rows one ones zeros threes adaptive_run 0
              Hown Hc Hlt) as [_ Hzero].
  apply Hzero; [exact Hsat | reflexivity].
Defined.

Lemma differential_components_mask_witness :
  1 < length (solution adaptive_run)
  /\ differential_components adaptive_run !! 0 = Some zero
  /\ differential_components adaptive_run !! 1 = Some one
  /\ differential_components adaptive_run !! 2 = Some zero.
Proof.
  assert (H0 : 0 < length (solution adaptive_run)) by (vm_compute; lia).
  assert (H1 : 1 < length (solution adaptive_run)) by (vm_compute; lia).
  assert (H2 : 2 < length (solution adaptive_run)) by (vm_compute; lia).
  split; [exact H1|]. split; [|split].
  - apply (proj2 (proj2 (differential_components_mask adaptive_run 0 H0))).
    + vm_compute. constructor.
    + reflexivity.
  - apply (proj1 (differential_components_mask adaptive_run 1 H1));
      reflexivity.
  - apply (proj1 (proj2 (differential_components_mask adaptive_run 2 H2))).
    reflexivity.
Defined.

(** one run suffices; the retry succeeds; both runs fail; another
    exception passes through *)
Lemma solve_jacobian_system_policy_witness :
  (solve_jacobian_system one zeros zeros [] two [zero; zero; one] threes adaptive_run).2
  = returns 0 [zero; zero; one] (Some 20)
  /\ (solve_jacobian_system one zeros zeros [] two [one; one; zero] threes adaptive_run).2
     = returns 0 [zero; one; zero] (Some 70)
  /\ (solve_jacobian_system one zeros zeros [] two ones threes adaptive_run).2
     = returns 1 [zero; three; three] None
  /\ (solve_jacobian_system one zeros zeros [] two [] threes adaptive_run).2
     = throws (OtherException 0) [zero; three; three].
Proof.
  pose proof (solve_jacobian_system_policy one zeros zeros [] two
                [zero; zero; one] threes adaptive_run) as (_ & _ & H1 & _).
  pose proof (solve_jacobian_system_policy one zeros zeros [] two
                [one; one; zero] threes adaptive_run) as (_ & _ & H2 & _).
  pose proof (solve_jacobian_system_policy one zeros zeros [] two
                ones threes adaptive_run) as (_ & _ & H3 & _).
  pose proof (solve_jacobian_system_policy one zeros zeros [] two
                [] threes adaptive_run) as (_ & _ & H4 & _).
  exact (conj H1 (conj H2 (conj H3 H4))).
Defined.

Lemma solver_should_restart_disabled_witness :
  use_space_adaptivity (prm fixed_mesh_run) = false
  /\ solver_should_restart zero 0 zero
       (with_solution [three; one; one] threes fixed_mesh_run)
     = (false, with_solution [three; one; one] threes fixed_mesh_run).
Proof.
  split; [reflexivity|].
  apply (solver_should_restart_disabled zero 0 zero
           (with_solution [three; one; one] threes fixed_mesh_run)).
  reflexivity.
Defined.

(** The other switch, "Adaptive refinement" ([adaptive_refinement]), does
    not switch the controller off: with it off and space adaptivity on, a
    triggered check refines the whole mesh once and returns [true]. *)
Example adaptive_refinement_off_refines_globally :
  let s := with_solution [three; one; one] threes
             (initial (parameters false true zero (-1))) in
  (solver_should_restart zero 0 zero s).1 = true
  /\ refinements (grid (solver_should_restart zero 0 zero s).2) = 1
  /\ call_refine_global 1 ∈ calls (solver_should_restart zero 0 zero s).2.
Proof.
  split; [reflexivity|]. split; [reflexivity|].
  vm_compute. repeat constructor.
Qed.

(** [after_step]: the indicator is [|u_1| = 1.0], above the threshold
    [0.0]; [max_cells = -1] selects the fixed-fraction marking. *)
Lemma solver_should_restart_trigger_witness :
  use_space_adaptivity (prm after_step) = true
  /\ (solver_should_restart zero 0 zero after_step).1 = true
  /\ (exists rest,
        calls (solver_should_restart zero 0 zero after_step).2
        = [call_setup_dofs true; call_estimate [zero; one; one] [true; true; false];
           call_refine_and_coarsen_fixed_fraction [one] one zero] ++ rest)
  /\ refinements (grid (solver_should_restart zero 0 zero after_step).2) = 1.
Proof.
  assert (Hon : use_space_adaptivity (prm after_step) = true) by reflexivity.
  destruct (solver_should_restart_trigger zero 0 zero after_step Hon)
    as (Hiff & Htrue & _).
  assert (Hret : (solver_should_restart zero 0 zero after_step).1 = true).
  { apply Hiff. reflexivity. }
  destruct (Htrue Hret) as (mark & marked & Hneg & _ & [rest Hcalls] & Hgrid).
  destruct Hneg as [-> ->]; [reflexivity|].
  split; [exact Hon|]. split; [exact Hret|]. split.
  - exists rest. rewrite Hcalls. reflexivity.
  - rewrite Hgrid. reflexivity.
Defined.

Lemma solver_should_restart_transfer_witness :
  (solver_should_restart zero 0 zero after_step).1 = true
  /\ solution (solver_should_restart zero 0 zero after_step).2 = [zero; one; one]
  /\ solution_dot (solver_should_restart zero 0 zero after_step).2 = threes.
Proof.
  assert (Hret : (solver_should_restart zero 0 zero after_step).1 = true)
    by reflexivity.
  destruct (solver_should_restart_transfer zero 0 zero after_step Hret)
    as (_ & _ & Hy & Hy_dot).
  split; [exact Hret|]. split.
  - rewrite Hy. reflexivity.
  - rewrite Hy_dot. reflexivity.
Defined.

(** C6, as stated, fails on [after_step]: the vector attached for the
    transfer of [solution] is (3, 1, 1), not its constraint-consistent form
    (0, 1, 1), and the new [solution_dot] = (3, 3, 3) does not have the
    rebuilt constraints applied, which would give (0, 3, 3). *)
Lemma transfer_snapshot_is_raw :
  (solver_should_restart zero 0 zero after_step).1 = true
  /\ distribute (constraints after_step) (solution after_step) = [zero; one; one]
  /\ List.filter (fun c => match c with
                           | call_prepare_for_coarsening_and_refinement _ => true
                           | _ => false
                           end)
                 (calls (solver_should_restart zero 0 zero after_step).2)
     = [call_prepare_for_coarsening_and_refinement [three; one; one];
        call_prepare_for_coarsening_and_refinement threes]
  /\ solution_dot (solver_should_restart zero 0 zero after_step).2 = threes
  /\ distribute (constraints (solver_should_restart zero 0 zero after_step).2)
                (solution_dot (solver_should_restart zero 0 zero after_step).2)
     = [zero; three; three].
Proof. repeat split; vm_compute; reflexivity. Qed.

(** C7, as stated, fails on [setup_once]: the operator inverted in the
    velocity-velocity block of the preconditioner is the block of the
    Jacobian matrix, not the block of the preconditioner matrix, and the
    two blocks differ (entry (1,1) is 3.0 in one and 1.5 in the other). *)
Lemma velocity_solve_is_on_jacobian_block :
  (forall solver_CG amg P01 P10 P11,
      jacobian_preconditioner_op setup_once
      <> block_operator
           (inverse_operator
              (linear_operator the_jacobian_preconditioner_matrix 0 0)
              solver_CG amg)
           P01 P10 P11)
  /\ mat_block (dofs_per_block setup_once) (jacobian_matrix setup_once) 0 0
       !! (1, 1) = Some three
  /\ mat_block (dofs_per_block setup_once)
               (jacobian_preconditioner_matrix setup_once) 0 0
       !! (1, 1) = Some (S754_finite false 6755399441055744 (-52)).
Proof.
  split; [|split].
  - intros solver_CG amg P01 P10 P11 H.
    apply (f_equal (fun op =>
             match op with
             | block_operator (inverse_operator (linear_operator M _ _) _ _) _ _ _ =>
                 Some M
             | _ => None
             end)) in H.
    vm_compute in H. discriminate H.
  - vm_compute. reflexivity.
  - vm_compute. reflexivity.
Qed.

(** C3 on the reference instance: a second [setup_jacobian] with the same
    arguments leaves the Jacobian matrix and operator as they were, but the
    preconditioner matrix is not zeroed before the cells are added to it:
    its pressure-pressure entry goes from 1.0 to 2.0, and the
    preconditioner operator changes with it. *)
Theorem second_setup_changes_preconditioner :
  jacobian_matrix setup_twice = jacobian_matrix setup_once
  /\ jacobian_op setup_twice = jacobian_op setup_once
  /\ mat_get (jacobian_preconditioner_matrix setup_once) 2 2 = one
  /\ mat_get (jacobian_preconditioner_matrix setup_twice) 2 2 = two
  /\ jacobian_preconditioner_matrix setup_twice
     <> jacobian_preconditioner_matrix setup_once
  /\ jacobian_preconditioner_op setup_twice
     <> jacobian_preconditioner_op setup_once.
Proof.
  split; [vm_compute; reflexivity|].
  split; [reflexivity|].
  split; [vm_compute; reflexivity|].
  split; [vm_compute; reflexivity|].
  split.
  - intros H. apply (f_equal (fun M => mat_get M 2 2)) in H.
    vm_compute in H. discriminate H.
  - intros H.
    apply (f_equal (fun op =>
             match op with
             | block_operator _ _ _
                 (scale_operator _ (inverse_operator _ _ (PreconditionJacobi A))) =>
                 A !! (0, 0)
             | _ => None
             end)) in H.
    vm_compute in H. discriminate H.
Qed.

(** C4 on the reference instance: after the first [setup_jacobian] the
    preconditioner matrix is the constrained scatter of the cell matrices,
    after the second it is not: the scatter has pressure-pressure entry
    1.0, the matrix has 2.0. *)
Theorem second_setup_preconditioner_is_not_the_scatter :
  let scatter :=
    (assemble_cells two (mu (prm setup_twice)) (grid setup_twice)
       (constraints setup_twice)
       (mat_zero (jacobian_matrix setup_twice))
       (mat_zero (jacobian_preconditioner_matrix setup_twice))).2 in
  jacobian_preconditioner_matrix setup_once = scatter
  /\ mat_get scatter 2 2 = one
  /\ mat_get (jacobian_preconditioner_matrix setup_twice) 2 2 = two
  /\ jacobian_preconditioner_matrix setup_twice <> scatter.
Proof.
  intros scatter.
  split; [vm_compute; reflexivity|].
  split; [vm_compute; reflexivity|].
  split; [vm_compute; reflexivity|].
  intros H. apply (f_equal (fun M => mat_get M 2 2)) in H.
  vm_compute in H. discriminate H.
Qed.

End Examples.

(** ** Further properties *)

(** *** Comparison of doubles *)

Lemma ltb_trans (a b c : double) :
  ltb a b = true -> ltb b c = true -> ltb a c = true.
Proof.
  unfold ltb, SFltb.
  destruct a as [sa|sa| |sa ma ea], b as [sb|sb| |sb mb eb],
           c as [sc|sc| |sc mc ec]; simpl;
    try discriminate; try done;
    try (destruct sa; try discriminate; try done);
    try (destruct sb; try discriminate; try done);
    try (destruct sc; try discriminate; try done).
  all: destruct (Z.compare_spec ea eb), (Z.compare_spec eb ec),
         (Z.compare_spec ea ec); subst; try discriminate; try done; try lia.
  all: rewrite ?Pos.compare_cont_spec; simpl;
    destruct (Pos.compare_spec ma mb), (Pos.compare_spec mb mc),
      (Pos.compare_spec ma mc); subst; simpl; try discriminate; try done; lia.
Qed.

(** *** Loops over the locally owned indices, continued *)

Lemma owned_loop_notin pick value (id : IndexSet) (v : VEC) (j : nat) :
  j ∉ id -> owned_loop pick value id v !! j = v !! j.
Proof.
  unfold owned_loop. revert v.
  induction id as [|k id IH]; intros v Hj; simpl; [done|].
  apply not_elem_of_cons in Hj as [Hne Hj].
  rewrite IH by done. destruct (pick k); [|done].
  by apply list_lookup_insert_ne.
Qed.

Lemma owned_loop_untouched pick value (id : IndexSet) (v : VEC) (j : nat) :
  ~ (j ∈ id /\ pick j = true) -> owned_loop pick value id v !! j = v !! j.
Proof.
  intros Hj. destruct (pick j) eqn:Hp.
  - apply owned_loop_notin. intros Hin. by apply Hj.
  - by apply owned_loop_skip.
Qed.

Lemma owned_loop_cases pick value (id : IndexSet) (v : VEC) (j : nat) :
  owned_loop pick value id v !! j = v !! j
  \/ owned_loop pick value id v !! j = Some (value j).
Proof.
  destruct (decide (j ∈ id)) as [Hin|Hin].
  - destruct (pick j) eqn:Hp.
    + destruct (decide (j < length v)) as [Hlt|Hge].
      * right. by apply owned_loop_hit.
      * left. rewrite !lookup_ge_None_2; [done|lia|].
        rewrite owned_loop_length. lia.
    + left. by apply owned_loop_skip.
  - left. by apply owned_loop_notin.
Qed.

Lemma owned_loop_idempotent pick value (id : IndexSet) (v : VEC) :
  owned_loop pick value id (owned_loop pick value id v)
  = owned_loop pick value id v.
Proof.
  apply list_eq. intros j.
  destruct (decide (j ∈ id /\ pick j = true)) as [[Hin Hp]|Hno].
  - destruct (decide (j < length v)) as [Hlt|Hge].
    + rewrite !owned_loop_hit; rewrite ?owned_loop_length; done.
    + rewrite !lookup_ge_None_2; rewrite ?owned_loop_length; [done|lia..].
  - by rewrite owned_loop_untouched.
Qed.

(** The loop result depends on the entries it does not overwrite only. *)
Lemma owned_loop_ext pick value (id : IndexSet) (v w : VEC) :
  length v = length w ->
  (forall j, ~ (j ∈ id /\ pick j = true) -> v !! j = w !! j) ->
  owned_loop pick value id v = owned_loop pick value id w.
Proof.
  intros Hlen Hagree. apply list_eq. intros j.
  destruct (decide (j ∈ id /\ pick j = true)) as [[Hin Hp]|Hno].
  - destruct (decide (j < length v)) as [Hlt|Hge].
    + rewrite !owned_loop_hit; [done..|lia|done|done|done].
    + rewrite !lookup_ge_None_2; rewrite ?owned_loop_length; [done|lia..].
  - rewrite !owned_loop_untouched by done. by apply Hagree.
Qed.

(** *** Closed constraint sets *)

Lemma distribute_frame (c : ConstraintMatrix) (v : VEC) (j : nat) :
  is_constrained c j = false -> distribute c v !! j = v !! j.
Proof.
  unfold distribute, is_constrained. revert v.
  induction c as [|l c IH]; intros v Hj; simpl in *; [done|].
  apply orb_false_iff in Hj as [Hl Hj]. apply Nat.eqb_neq in Hl.
  rewrite IH by done. by apply list_lookup_insert_ne.
Qed.

Lemma line_value_ext (l : ConstraintLine) (v w : VEC) :
  (forall e, e ∈ entries l -> v !! e.1 = w !! e.1) ->
  line_value l v = line_value l w.
Proof.
  unfold line_value. generalize (inhomogeneity l).
  induction (entries l) as [|e es IH]; intros acc Hext; simpl; [done|].
  assert (Hv : vec_get v e.1 = vec_get w e.1).
  { unfold vec_get. by rewrite (Hext e) by apply list_elem_of_here. }
  rewrite Hv. apply IH. intros e' He'. apply Hext. by apply list_elem_of_further.
Qed.

Lemma is_constrained_lines (c : ConstraintMatrix) (j : nat) :
  is_constrained c j = true <-> j ∈ line <$> c.
Proof.
  unfold is_constrained. induction c as [|l c IH]; simpl.
  - split; [discriminate | by intros ?%elem_of_nil].
  - rewrite orb_true_iff, IH, elem_of_cons, Nat.eqb_eq.
    split; (intros [H|H]; [left; congruence | right; done]).
Qed.

Lemma is_closed_spec (c : ConstraintMatrix) (n : nat) :
  is_closed c n = true ->
  NoDup (line <$> c)
  /\ forall l, l ∈ c ->
       line l < n
       /\ forall e, e ∈ entries l -> is_constrained c e.1 = false.
Proof.
  unfold is_closed. intros H. apply andb_true_iff in H as [Hnd Hall].
  split; [by apply bool_decide_eq_true in Hnd|].
  intros l Hl. rewrite forallb_forall in Hall.
  apply list_elem_of_In in Hl. specialize (Hall l Hl).
  apply andb_true_iff in Hall as [Hlt Hent]. apply Nat.ltb_lt in Hlt.
  split; [done|]. intros e He. rewrite forallb_forall in Hent.
  apply list_elem_of_In in He. specialize (Hent e He).
  by apply negb_true_iff in Hent.
Qed.

(** Distributing over a closed constraint set gives a vector that
    satisfies every line. *)
Lemma distribute_satisfies (c : ConstraintMatrix) (v : VEC) :
  is_closed c (length v) = true ->
  satisfies_constraints c (distribute c v).
Proof.
  intros Hclosed. apply is_closed_spec in Hclosed as [Hnd Hlines].
  assert (Hval : forall l, l ∈ c ->
            line_value l (distribute c v) = line_value l v).
  { intros l Hl. apply line_value_ext. intros e He.
    apply distribute_frame. by apply (Hlines l Hl). }
  unfold satisfies_constraints. apply Forall_forall. intros l Hl.
  rewrite (Hval l Hl).
  apply list_elem_of_split in Hl as (c1 & c2 & ->).
  rewrite fmap_app, fmap_cons in Hnd.
  apply NoDup_app in Hnd as (_ & Hdisj & Hnd2).
  apply NoDup_cons in Hnd2 as [Hnot2 _].
  unfold distribute. rewrite fold_left_app. simpl.
  change (fold_left _ c1 v) with (distribute c1 v).
  change (fold_left _ c2 ?w) with (distribute c2 w).
  rewrite distribute_frame.
  2:{ destruct (is_constrained c2 (line l)) eqn:E; [|done].
      by apply is_constrained_lines in E. }
  unfold vec_set. rewrite list_lookup_insert_eq.
  2:{ rewrite distribute_length. apply (Hlines l).
      apply elem_of_app. right. apply list_elem_of_here. }
  f_equal. apply line_value_ext. intros e He. apply distribute_frame.
  destruct (is_constrained c1 e.1) eqn:E; [|done]. exfalso.
  assert (Hfree : is_constrained (c1 ++ l :: c2) e.1 = false).
  { apply (Hlines l); [|done]. apply elem_of_app. right. apply list_elem_of_here. }
  apply is_constrained_lines in E.
  assert (Hin : e.1 ∈ line <$> (c1 ++ l :: c2)).
  { rewrite fmap_app. apply elem_of_app. by left. }
  apply is_constrained_lines in Hin. congruence.
Qed.

Lemma mat_reinit_get (m : nat) (pattern : list (nat * nat)) (i j : nat) :
  mat_get (mat_reinit m pattern) i j = zero.
Proof.
  unfold mat_get, mat_reinit. simpl.
  destruct (list_to_map _ !! (i, j)) as [x|] eqn:E; [|done].
  apply elem_of_list_to_map_2 in E.
  apply list_elem_of_fmap in E as (ij & [= _ ->] & _). done.
Qed.

Section FurtherProperties.

Context `{L : DealII} `{!DealIILaws L}.

(** *** [residual] *)

(** [dst] is an output only: the result has the size of [dst] and does not
    depend on what [dst] held, and outside the locally owned constrained
    rows it is the assembled weak-form residual. *)
Theorem residual_rows t y y_dot dst (s : Stokes) :
  let c := rebuild_constraints t (grid s) in
  length (residual_dst t y y_dot dst s) = length dst
  /\ (forall dst', length dst' = length dst ->
        residual t y y_dot dst' s = residual t y y_dot dst s)
  /\ (forall j, ~ (j ∈ global_partitioning s /\ is_constrained c j = true) ->
        residual_dst t y y_dot dst s !! j
        = assemble_residual (mu (prm s)) t (grid s) c (distribute c y) y_dot
            (replicate (length dst) zero) !! j).
Proof.
  intros c. unfold residual_dst, residual, vec_compress, vec_zero. simpl.
  fold c. rewrite overwrite_constrained_loop. split; [|split].
  - rewrite owned_loop_length, assemble_residual_length.
    apply length_replicate.
  - intros dst' Hlen. by rewrite Hlen.
  - intros j Hj. by rewrite owned_loop_untouched.
Qed.

Lemma residual_dst_constrained_entry t y y_dot dst (s : Stokes) j :
  j ∈ global_partitioning s ->
  is_constrained (rebuild_constraints t (grid s)) j = true ->
  j < length dst ->
  residual_dst t y y_dot dst s !! j
  = Some (sub (vec_get y j)
              (vec_get (distribute (rebuild_constraints t (grid s)) y) j)).
Proof.
  intros Hown Hc Hlt.
  unfold residual_dst, residual, vec_compress, vec_zero. simpl.
  rewrite overwrite_constrained_loop.
  apply (owned_loop_hit (is_constrained (rebuild_constraints t (grid s)))
           (fun j => sub (vec_get y j)
              (vec_get (distribute (rebuild_constraints t (grid s)) y) j)));
    [done..|].
  by rewrite assemble_residual_length, length_replicate.
Qed.

(** With a closed constraint set, the residual of a constraint-distributed
    vector is [+0.0] on every locally owned constrained row whose value is
    finite. *)
Theorem residual_of_distributed t y y_dot dst (s : Stokes) j :
  let c := rebuild_constraints t (grid s) in
  is_closed c (length y) = true ->
  j ∈ global_partitioning s ->
  is_constrained c j = true ->
  j < length dst ->
  is_finite (vec_get (distribute c y) j) = true ->
  residual_dst t (distribute c y) y_dot dst s !! j = Some zero.
Proof.
  intros c Hclosed Hown Hc Hlt Hfin.
  rewrite residual_dst_constrained_entry by done. fold c.
  rewrite (distribute_satisfied c (distribute c y)).
  - by rewrite sub_diag.
  - by apply distribute_satisfies.
Qed.

(** *** [set_constrained_dofs_to_zero] *)

(** The function keeps the size, changes only locally owned constrained
    entries, and applying it twice is applying it once. *)
Theorem set_constrained_dofs_to_zero_effect (s : Stokes) (v : VEC) :
  length (set_constrained_dofs_to_zero s v) = length v
  /\ (forall j, ~ (j ∈ global_partitioning s
                   /\ is_constrained (constraints s) j = true) ->
        set_constrained_dofs_to_zero s v !! j = v !! j)
  /\ set_constrained_dofs_to_zero s (set_constrained_dofs_to_zero s v)
     = set_constrained_dofs_to_zero s v.
Proof.
  rewrite !set_constrained_dofs_to_zero_loop. split; [|split].
  - apply owned_loop_length.
  - intros j Hj. by apply owned_loop_untouched.
  - apply owned_loop_idempotent.
Qed.

(** *** [differential_components] *)

(** The mask has the layout of [solution] and holds nothing but [+0.0] and
    [1.0]. *)
Theorem differential_components_binary (s : Stokes) :
  length (differential_components s) = length (solution s)
  /\ forall j x, differential_components s !! j = Some x ->
       x = zero \/ x = one.
Proof.
  unfold differential_components.
  rewrite set_constrained_dofs_to_zero_loop. split.
  - rewrite owned_loop_length. unfold set_block, vec_zero.
    by rewrite !length_imap, length_replicate.
  - intros j x Hx.
    destruct (owned_loop_cases (is_constrained (constraints s))
                (fun _ => zero) (global_partitioning s)
                (set_block (dofs_per_block s) 1 zero
                   (set_block (dofs_per_block s) 0 one
                      (vec_zero (solution s)))) j) as [Hsame|Hzero].
    + rewrite Hsame in Hx. rewrite !set_block_lookup in Hx.
      unfold vec_zero in Hx.
      destruct (replicate (length (solution s)) zero !! j) as [z|] eqn:Hz;
        [|discriminate].
      apply lookup_replicate in Hz as [-> _]. simpl in Hx.
      destruct (in_block (dofs_per_block s) 1 j),
               (in_block (dofs_per_block s) 0 j);
        injection Hx as <-; auto.
    + rewrite Hzero in Hx. injection Hx as <-. by left.
Qed.

(** *** [solve_jacobian_system] *)

(** What [dst] holds in its locally owned constrained entries on entry has
    no influence on the solve. *)
Theorem solve_ignores_constrained_guess
    t y y_dot unnamed alpha src dst dst' (s : Stokes) :
  length dst = length dst' ->
  (forall j, ~ (j ∈ global_partitioning s
                /\ is_constrained (constraints s) j = true) ->
     dst !! j = dst' !! j) ->
  solve_jacobian_system t y y_dot unnamed alpha src dst s
  = solve_jacobian_system t y y_dot unnamed alpha src dst' s.
Proof.
  intros Hlen Hagree. unfold solve_jacobian_system.
  assert (Hzeroed : set_constrained_dofs_to_zero s dst
                    = set_constrained_dofs_to_zero s dst').
  { rewrite !set_constrained_dofs_to_zero_loop. by apply owned_loop_ext. }
  by rewrite Hzeroed.
Qed.

(** *** [setup_dofs] *)

(** [setup_dofs] leaves both matrices with as many rows as there are
    degrees of freedom in the blocks and with every entry [+0.0], and the
    two distributed vectors zero; unless it is the first run, [solution]
    and [solution_dot] are zero as well.  The block operators and the two
    preconditioners are not touched. *)
Theorem setup_dofs_resets (first : bool) (s : Stokes) :
  let s' := setup_dofs first s in
  let n := foldr Nat.add 0 (dofs_per_block s') in
  mat_m (jacobian_matrix s') = n
  /\ mat_m (jacobian_preconditioner_matrix s') = n
  /\ (forall i j, mat_get (jacobian_matrix s') i j = zero
                  /\ mat_get (jacobian_preconditioner_matrix s') i j = zero)
  /\ distributed_solution s' = replicate n zero
  /\ distributed_solution_dot s' = replicate n zero
  /\ (first = false ->
      solution s' = replicate n zero /\ solution_dot s' = replicate n zero)
  /\ jacobian_op s' = jacobian_op s
  /\ jacobian_preconditioner_op s' = jacobian_preconditioner_op s
  /\ Amg_preconditioner s' = Amg_preconditioner s
  /\ Mp_preconditioner s' = Mp_preconditioner s.
Proof.
  simpl. split; [done|]. split; [done|].
  split; [intros i j; split; apply mat_reinit_get|].
  split; [done|]. split; [done|]. split; [by intros ->|]. done.
Qed.

(** *** [solver_should_restart] *)


(** After a triggered adaptation the new [solution] satisfies the rebuilt
    constraints, provided these are closed and the transfer returns a
    vector of the size it was given. *)
Theorem restart_solution_satisfies_constraints t step_number h (s : Stokes) :
  (solver_should_restart t step_number h s).1 = true ->
  let s' := (solver_should_restart t step_number h s).2 in
  let n := foldr Nat.add 0 (dofs_per_block s') in
  length (SolutionTransfer_interpolate (grid s') 0 (replicate n zero)) = n ->
  is_closed (constraints s') n = true ->
  satisfies_constraints (constraints s') (solution s')
  /\ length (solution s') = n.
Proof.
  unfold solver_should_restart.
  destruct (use_space_adaptivity (prm s)); [|discriminate].
  destruct (ltb _ _); [|discriminate].
  intros _. simpl. intros Hlen Hclosed. split.
  - apply distribute_satisfies. by rewrite Hlen.
  - by rewrite distribute_length.
Qed.

(** Without any error the check never asks for a restart unless the
    threshold is negative: if every indicator on every rank is a zero, the
    result is [kelly_threshold < 0]. *)
Theorem no_restart_when_indicators_vanish t step_number h (s : Stokes) :
  use_space_adaptivity (prm s) = true ->
  (forall r, Forall (fun x => abs x = zero)
               (KellyErrorEstimator_estimate (grid s)
                  (distribute (constraints s) (solution s))
                  [true; true; false] r)) ->
  (solver_should_restart t step_number h s).1 = ltb (kelly_threshold (prm s)) zero.
Proof.
  intros Hon Hzero. unfold solver_should_restart. rewrite Hon.
  assert (Hmax : global_max_kelly (grid s)
                   (distribute (constraints s) (solution s)) = zero).
  { unfold global_max_kelly, Utilities_MPI_max.
    assert (Hnorm : forall r,
      linfty_norm (KellyErrorEstimator_estimate (grid s)
        (distribute (constraints s) (solution s)) kelly_mask r) = zero).
    { intros r. specialize (Hzero r). unfold linfty_norm.
      change kelly_mask with [true; true; false].
      induction Hzero as [|x xs Hx _ IH]; simpl; [done|].
      by rewrite Hx. }
    rewrite Hnorm. generalize (seq 1 (n_mpi_processes - 1)).
    intros rs. induction rs as [|r rs IH]; simpl; [done|].
    by rewrite Hnorm. }
  rewrite Hmax. by destruct (ltb (kelly_threshold (prm s)) zero).
Qed.

(** Lowering the threshold never turns a restart into no restart: two
    objects that differ in the threshold only. *)
Theorem restart_monotone_in_threshold t step_number h (s1 s2 : Stokes) :
  use_space_adaptivity (prm s1) = true ->
  grid s1 = grid s2 ->
  constraints s1 = constraints s2 ->
  solution s1 = solution s2 ->
  ltb (kelly_threshold (prm s1)) (kelly_threshold (prm s2)) = true ->
  (solver_should_restart t step_number h s2).1 = true ->
  (solver_should_restart t step_number h s1).1 = true.
Proof.
  intros Hon Hg Hc Hy Hthr. unfold solver_should_restart.
  rewrite Hon, Hg, Hc, Hy.
  destruct (use_space_adaptivity (prm s2)); [|discriminate].
  destruct (ltb (kelly_threshold (prm s2)) _) eqn:H2; [|discriminate].
  intros _. by rewrite (ltb_trans _ _ _ Hthr H2).
Qed.

(** *** [assemble_jacobian_matrix] *)

(** The loop after the assembly sets the diagonal entry of every locally
    owned constrained degree of freedom to [1.0] and changes no other
    entry of the scattered Jacobian matrix. *)
Theorem jacobian_rows_after_setup t y y_dot alpha (s : Stokes) :
  let s' := assemble_jacobian_matrix t y y_dot alpha s in
  let scattered :=
    (assemble_cells alpha (mu (prm s)) (grid s) (constraints s')
       (mat_zero (jacobian_matrix s)) (jacobian_preconditioner_matrix s)).1 in
  (forall j, j ∈ global_partitioning s ->
             is_constrained (constraints s') j = true ->
             mat_get (jacobian_matrix s') j j = one)
  /\ (forall i j,
        ~ (i = j /\ i ∈ global_partitioning s
           /\ is_constrained (constraints s') i = true) ->
        mat_get (jacobian_matrix s') i j = mat_get scattered i j).
Proof.
  intros s' scattered. split.
  - intros j Hown Hc. by apply jacobian_constrained_diagonal.
  - intros i j Hij. subst s' scattered. simpl in *. unfold mat_compress.
    generalize (assemble_cells alpha (mu (prm s)) (grid s)
                  (rebuild_constraints t (grid s))
                  (mat_zero (jacobian_matrix s))
                  (jacobian_preconditioner_matrix s)).1.
    unfold set_constrained_diagonal.
    induction (global_partitioning s) as [|k id IH]; intros J; simpl; [done|].
    rewrite IH.
    2:{ intros (-> & Hin & Hc). apply Hij. repeat split; [|done].
        by apply list_elem_of_further. }
    destruct (is_constrained (rebuild_constraints t (grid s)) k) eqn:Hk;
      [|done].
    unfold mat_get, mat_set. simpl. rewrite lookup_insert_ne; [done|].
    intros [= -> ->]. apply Hij. repeat split; [|done].
    apply list_elem_of_here.
Qed.

End FurtherProperties.

Section RestProperties.

Context `{L : DealII} `{M : !DealIIMesh L} `{!DealIIMeshLaws L M}
        `{N : ComponentNames}.

(** *** [output_step] *)

(** What [output_step] writes and compares with the exact solution is [y]
    with the constrained entries replaced by the values of their lines: it
    agrees with [y] on the unconstrained entries and, for a closed
    constraint set, satisfies the constraints.  The constraints are those
    stored in the object; they are not rebuilt for the time [t]. *)
Theorem output_step_writes_distributed t y y_dot step_number h (s : Stokes) :
  is_closed (constraints s) (length y) = true ->
  let out := output_step t y y_dot step_number h s in
  exists written,
    out_add_data_vector written get_component_names ∈ out.1
    /\ out_error_from_exact written (exact_solution_time s) ∈ out.1
    /\ distributed_solution out.2 = written
    /\ satisfies_constraints (constraints s) written
    /\ (forall j, is_constrained (constraints s) j = false ->
          written !! j = y !! j)
    /\ constraints out.2 = constraints s
    /\ dirichlet_bcs_time out.2 = dirichlet_bcs_time s.
Proof.
  intros Hclosed out. exists (distribute (constraints s) y).
  split; [subst out; simpl; apply list_elem_of_further, list_elem_of_here|].
  split; [subst out; simpl; do 4 apply list_elem_of_further;
          apply list_elem_of_here|].
  split; [done|]. split; [by apply distribute_satisfies|].
  split; [intros j Hj; by apply distribute_frame|]. done.
Qed.

(** *** [make_grid_fe] *)

Lemma face_loop_find (g : Grid) (cell : Cell) (vs : list nat) :
  face_loop g cell vs
  = match List.find (fun v => near_inner_circle (face cell v)) vs with
    | Some v => set_manifold_id g (face cell v) 99
    | None => g
    end.
Proof.
  induction vs as [|v vs IH]; simpl; [done|].
  by destruct (near_inner_circle (face cell v)).
Qed.

Lemma find_seq_first (p : nat -> bool) (a n v : nat) :
  List.find p (seq a n) = Some v <->
  a <= v < a + n /\ p v = true /\ forall v', a <= v' < v -> p v' = false.
Proof.
  revert a. induction n as [|n IH]; intros a; simpl.
  - split; [discriminate | lia].
  - destruct (p a) eqn:Ha.
    + split.
      * intros [= <-]. repeat split; [lia..|done|]. intros v' Hv'. lia.
      * intros (Hrange & Hv & Hfirst).
        destruct (decide (a = v)) as [->|Hne]; [done|].
        rewrite Hfirst in Ha; [discriminate | lia].
    + rewrite IH. split.
      * intros (Hrange & Hv & Hfirst). repeat split; [lia..|done|].
        intros v' Hv'. destruct (decide (v' = a)) as [->|Hne]; [done|].
        apply Hfirst. lia.
      * intros (Hrange & Hv & Hfirst).
        assert (a <> v) by (intros ->; congruence).
        repeat split; [lia..|done|]. intros v' Hv'. apply Hfirst. lia.
Qed.

Lemma cell_step_manifold_id (g : Grid) (cell : Cell) (f : Face) :
  manifold_id
    (set_manifold (face_loop g cell (seq 0 faces_per_cell)) 99
                  (SphericalManifold center)) f
  = match List.find (fun v => near_inner_circle (face cell v))
                    (seq 0 faces_per_cell) with
    | Some v => if decide (face cell v = f) then 99 else manifold_id g f
    | None => manifold_id g f
    end.
Proof.
  rewrite manifold_id_set_manifold, face_loop_find.
  destruct (List.find _ _); [|done].
  apply manifold_id_set_manifold_id.
Qed.

Lemma cell_manifold_loop_keep (g : Grid) (cells : list Cell) (f : Face) :
  manifold_id g f = 99 -> manifold_id (cell_manifold_loop g cells) f = 99.
Proof.
  unfold cell_manifold_loop. revert g.
  induction cells as [|cell cells IH]; intros g Hg; cbn [fold_left]; [done|].
  apply IH. rewrite cell_step_manifold_id.
  destruct (List.find _ _); [|done]. by case_decide.
Qed.

(** In every cell the loop over the faces stops at the first face whose
    centre is within the radius: that face gets manifold id 99, the later
    faces of the cell are not looked at.  So a face ends with id 99 if it
    is the first such face of some cell, and keeps its id if it is the
    first such face of no cell, even when its own centre is within the
    radius. *)
Theorem cell_manifold_loop_marks_first_near_face
    (g : Grid) (cells : list Cell) (f : Face) :
  ((exists cell v,
       cell ∈ cells /\ v < faces_per_cell
       /\ near_inner_circle (face cell v) = true
       /\ (forall v', v' < v -> near_inner_circle (face cell v') = false)
       /\ face cell v = f) ->
   manifold_id (cell_manifold_loop g cells) f = 99)
  /\ ((forall cell v,
         cell ∈ cells -> v < faces_per_cell ->
         near_inner_circle (face cell v) = true ->
         (forall v', v' < v -> near_inner_circle (face cell v') = false) ->
         face cell v <> f) ->
      manifold_id (cell_manifold_loop g cells) f = manifold_id g f).
Proof.
  split.
  - intros (cell & v & Hin & Hv & Hnear & Hfirst & <-).
    revert g. induction cells as [|c cells IH]; intros g.
    + by apply elem_of_nil in Hin.
    + apply elem_of_cons in Hin as [<-|Hin]; [|by apply IH].
      unfold cell_manifold_loop. cbn [fold_left].
      apply cell_manifold_loop_keep. rewrite cell_step_manifold_id.
      assert (Hfind : List.find (fun v => near_inner_circle (face cell v))
                        (seq 0 faces_per_cell) = Some v).
      { apply find_seq_first. repeat split; [lia..|done|].
        intros v' Hv'. apply Hfirst. lia. }
      rewrite Hfind. by rewrite decide_True.
  - revert g. induction cells as [|c cells IH]; intros g Hnone; [done|].
    unfold cell_manifold_loop. cbn [fold_left].
    change (fold_left _ cells ?g0) with (cell_manifold_loop g0 cells).
    rewrite IH.
    2:{ intros cell v Hin. apply Hnone. by apply list_elem_of_further. }
    rewrite cell_step_manifold_id.
    destruct (List.find _ _) as [v|] eqn:Hfind; [|done].
    apply find_seq_first in Hfind as (Hrange & Hnear & Hfirst).
    rewrite decide_False; [done|].
    apply Hnone; [apply list_elem_of_here|lia|done|].
    intros v' Hv'. apply Hfirst. lia.
Qed.

End RestProperties.

(** ** The further properties on the reference instances *)

Section FurtherExamples.

Import Reference.

#[local] Instance reference_laws : DealIILaws dealii.
Proof. constructor. apply l2g_vector_length. Qed.

Lemma residual_rows_witness :
  length (residual_dst one [three; one; one] zeros threes adaptive_run) = 3
  /\ residual one [three; one; one] zeros ones adaptive_run
     = residual one [three; one; one] zeros threes adaptive_run
  /\ residual_dst one [three; one; one] zeros threes adaptive_run !! 1
     = Some zero.
Proof.
  destruct (residual_rows one [three; one; one] zeros threes adaptive_run)
    as (Hlen & Hdst & Hrows).
  split; [exact Hlen|]. split; [apply Hdst; reflexivity|].
  rewrite Hrows; [reflexivity|]. intros [_ Hc]. discriminate Hc.
Defined.

Lemma residual_of_distributed_witness :
  is_closed (rebuild_constraints one (grid adaptive_run)) 3 = true
  /\ distribute (rebuild_constraints one (grid adaptive_run)) [three; one; one]
     = ones
  /\ residual_dst one ones zeros threes adaptive_run !! 0 = Some zero.
Proof.
  split; [reflexivity|]. split; [reflexivity|].
  apply (residual_of_distributed one [three; one; one] zeros threes
           adaptive_run 0).
  - reflexivity.
  - vm_compute. constructor.
  - reflexivity.
  - simpl. lia.
  - reflexivity.
Defined.

Lemma solve_ignores_constrained_guess_witness :
  solve_jacobian_system one zeros zeros [] two [one; one; zero] threes adaptive_run
  = solve_jacobian_system one zeros zeros [] two [one; one; zero]
      [zero; three; three] adaptive_run.
Proof.
  apply solve_ignores_constrained_guess; [reflexivity|].
  intros j Hj. destruct j as [|j]; [|reflexivity].
  exfalso. apply Hj. split; [vm_compute; constructor | reflexivity].
Defined.


Lemma restart_solution_satisfies_constraints_witness :
  (solver_should_restart zero 0 zero after_step).1 = true
  /\ satisfies_constraints
       (constraints (solver_should_restart zero 0 zero after_step).2)
       (solution (solver_should_restart zero 0 zero after_step).2)
  /\ length (solution (solver_should_restart zero 0 zero after_step).2) = 3.
Proof.
  assert (Hret : (solver_should_restart zero 0 zero after_step).1 = true)
    by reflexivity.
  split; [exact Hret|].
  apply (restart_solution_satisfies_constraints zero 0 zero after_step Hret);
    reflexivity.
Defined.

(** [solution = (3, 0, 1)]: the only indicator is [|u_1| = 0.0] *)
Lemma no_restart_when_indicators_vanish_witness :
  (solver_should_restart zero 0 zero
     (with_solution [three; zero; one] threes adaptive_run)).1 = false.
Proof.
  rewrite (no_restart_when_indicators_vanish zero 0 zero
             (with_solution [three; zero; one] threes adaptive_run)).
  - reflexivity.
  - reflexivity.
  - intros r. vm_compute. repeat constructor.
Defined.

(** thresholds [0.0] and [0.5], indicator [1.0] *)
Lemma restart_monotone_in_threshold_witness :
  ltb zero (S754_finite false 4503599627370496 (-53)) = true
  /\ (solver_should_restart zero 0 zero after_step).1 = true.
Proof.
  split; [reflexivity|].
  apply (restart_monotone_in_threshold zero 0 zero after_step
           (with_solution [three; one; one] threes
              (initial (parameters true true
                          (S754_finite false 4503599627370496 (-53)) (-1)))));
    reflexivity.
Defined.

Lemma cell_loop_entries_witness :
  1 < dofs_per_cell
  /\ full_get (cell_loop two one fe).1 1 1 = three
  /\ full_get (cell_loop two one fe).2 1 1
     = S754_finite false 6755399441055744 (-52).
Proof.
  assert (H1 : 1 < dofs_per_cell) by (simpl; lia).
  destruct (cell_loop_entries two one fe 1 1 H1 H1) as [HJ HP].
  split; [exact H1|]. split.
  - rewrite HJ. reflexivity.
  - rewrite HP. reflexivity.
Defined.

Lemma output_step_writes_distributed_witness :
  is_closed (constraints after_step) 3 = true
  /\ exists written,
       out_add_data_vector written (@get_component_names ReferenceNames.names)
         ∈ (@output_step dealii ReferenceNames.names zero [three; one; one]
              threes 7 zero after_step).1
       /\ satisfies_constraints (constraints after_step) written.
Proof.
  assert (Hclosed : is_closed (constraints after_step) (length [three; one; one])
                    = true) by reflexivity.
  split; [exact Hclosed|].
  destruct (@output_step_writes_distributed dealii ReferenceNames.names
              zero [three; one; one] threes 7 zero after_step Hclosed)
    as (written & Hin & _ & _ & Hsat & _).
  exists written. split; [exact Hin | exact Hsat].
Defined.

Lemma mesh_laws : DealIIMeshLaws ReferenceMesh.dealii ReferenceMesh.mesh.
Proof.
  constructor.
  - intros g f m f'. simpl. case_decide as Hf.
    + subst. by rewrite lookup_insert_eq.
    + by rewrite lookup_insert_ne.
  - done.
Qed.

(** Cell 0 marks its face 1 and cell 1 its face 4; face 2, which lies on
    the circle as well, is behind them in both cells and keeps its id. *)
Lemma cell_manifold_loop_marks_first_near_face_witness :
  let marked :=
    @cell_manifold_loop ReferenceMesh.dealii ReferenceMesh.mesh
      ReferenceMesh.coarse_mesh [0; 1] in
  @manifold_id _ ReferenceMesh.mesh marked 1 = 99
  /\ @manifold_id _ ReferenceMesh.mesh marked 4 = 99
  /\ @near_inner_circle _ ReferenceMesh.mesh 2 = true
  /\ @manifold_id _ ReferenceMesh.mesh marked 2 = 0.
Proof.
  intros marked.
  pose proof (@cell_manifold_loop_marks_first_near_face
                ReferenceMesh.dealii ReferenceMesh.mesh mesh_laws
                ReferenceMesh.coarse_mesh [0; 1]) as Hmarks.
  split; [|split; [|split]].
  - apply (proj1 (Hmarks 1)). exists 0, 1.
    split; [apply list_elem_of_here|]. split; [unfold faces_per_cell; lia|].
    split; [reflexivity|]. split; [|reflexivity].
    intros v' Hv'. assert (v' = 0) as -> by lia. reflexivity.
  - apply (proj1 (Hmarks 4)). exists 1, 0.
    split; [apply list_elem_of_further, list_elem_of_here|].
    split; [unfold faces_per_cell; lia|].
    split; [reflexivity|]. split; [|reflexivity].
    intros v' Hv'. lia.
  - reflexivity.
  - unfold marked. rewrite (proj2 (Hmarks 2)); [reflexivity|].
    intros cell v Hin Hv Hnear Hfirst.
    unfold faces_per_cell in Hv.
    apply elem_of_cons in Hin as [->|Hin].
    + destruct v as [|[|[|[|v]]]]; try lia.
      * discriminate Hnear.
      * discriminate.
      * specialize (Hfirst 1 ltac:(lia)). discriminate Hfirst.
      * discriminate Hnear.
    + apply elem_of_cons in Hin as [->|Hin]; [|by apply elem_of_nil in Hin].
      destruct v as [|[|[|[|v]]]]; try lia.
      * discriminate.
      * specialize (Hfirst 0 ltac:(lia)). discriminate Hfirst.
      * discriminate Hnear.
      * discriminate Hnear.
Defined.

End FurtherExamples.
